(** * DomainEventPublisher: a shallow embedding of [events/DomainEventPublisher.ts]

    The publisher is a class with two private fields, [subscribers] (a
    reference to a JavaScript array of listeners) and [publishing] (a boolean).
    Arrays live in a store indexed by reference, so that replacing the array
    ([reset]) and mutating it in place ([push], [splice]) stay distinct.
    Methods are computations in a state-and-exception monad over that store. *)

From Stdlib Require Import ZArith.
From stdpp Require Import base option list gmap strings.

(** ** Values the publisher carries *)

(** [interfaces/IDomainEvent.ts]: a timestamp, a payload and a discriminator.
    The publisher never inspects them. *)
Record IDomainEvent := mkEvent {
  occuredOn : Z;
  payload : list (string * string);
  type : string
}.

(** A listener object is known to the publisher only by its reference
    ([indexOf] compares with [===]). *)
Abbreviation Listener := nat (only parsing).

(** References to array objects in the store. *)
Abbreviation ref := nat (only parsing).

(** The [handle] invocations made so far, oldest first. *)
Abbreviation History := (list (nat * IDomainEvent)) (only parsing).

(** What a listener's [handle] may do with the shared publisher instance. *)
Inductive Call :=
| CallSubscribe (l : Listener)
| CallUnsubscribe (l : Listener)
| CallPublish (e : IDomainEvent)
| CallReset.

Inductive Settlement := Fulfils | Rejects.

(** The value [handle] hands back to the [map] callback: a plain value (a
    [void] handler), or a promise that makes further calls before it
    settles. *)
Inductive Returned :=
| Plain
| Promise (later : list Call) (s : Settlement).

(** How the synchronous part of [handle] ends. *)
Inductive Ending :=
| Throws
| Returns (v : Returned).

(** Modelled from the spec: [interfaces/IDomainEventListener.ts] is not
    among the sources.  A listener exposes one operation, [handle(event)],
    whose result completes asynchronously.  One run of it is described by the
    calls it makes on the publisher before it returns or throws, and by how
    it ends.  Handlers are assumed to terminate and their promises to
    settle. *)
Record Behaviour := mkBehaviour {
  body : list Call;
  ending : Ending
}.

Definition is_reset (c : Call) : bool :=
  match c with CallReset => true | _ => false end.

Definition later_calls (v : Returned) : list Call :=
  match v with Plain => [] | Promise later _ => later end.

(** ** The store *)

Inductive ConsoleLine :=
| Warn (msg : string)
| Debug (msg : string) (event : IDomainEvent).

(** The two private fields of [class Publisher]. *)
Record Publisher := mkPublisher {
  subscribers : ref;
  publishing : bool
}.

(** Array objects, the singleton instance, what was written to the console
    and the log of [handle] invocations. *)
Record World := mkWorld {
  arrays : gmap nat (list nat);
  this : Publisher;
  console : list ConsoleLine;
  handled : History
}.

(** The array the [subscribers] field currently refers to. *)
Definition registry (w : World) : option (list Listener) :=
  arrays w !! subscribers (this w).

(** The field refers to an allocated array. *)
Definition wf (w : World) : Prop := is_Some (registry w).

(** ** Computations *)

Inductive Exn :=
| TypeError
| Thrown (by_listener : Listener).

Inductive Completion (A : Type) :=
| Normal (a : A)
| Abrupt (e : Exn).
Arguments Normal {A} a.
Arguments Abrupt {A} e.

(** [None] stands for exhausted fuel. *)
Definition M (A : Type) : Type := World -> option (Completion A * World).

Definition ret {A} (a : A) : M A := fun w => Some (Normal a, w).

Definition throw {A} (e : Exn) : M A := fun w => Some (Abrupt e, w).

Definition bind {A B} (m : M A) (k : A -> M B) : M B := fun w =>
  match m w with
  | None => None
  | Some (Normal a, w') => k a w'
  | Some (Abrupt e, w') => Some (Abrupt e, w')
  end.

Notation "x <- m ;; k" := (bind m (fun x => k))
  (at level 100, m at next level, right associativity).
Notation "m ;; k" := (bind m (fun _ => k))
  (at level 100, right associativity).

(** [try { m } finally { f }]: [f] runs on every completion of [m]; the
    completion of [m] stands unless [f] itself is abrupt. *)
Definition try_finally {A} (m : M A) (f : M unit) : M A := fun w =>
  match m w with
  | None => None
  | Some (c, w') =>
      match f w' with
      | None => None
      | Some (Normal _, w'') => Some (c, w'')
      | Some (Abrupt e, w'') => Some (Abrupt e, w'')
      end
  end.

(** A call whose result is a promise nobody awaits synchronously: a
    rejection does not raise in the caller. *)
Definition detached (m : M unit) : M unit := fun w =>
  match m w with
  | None => None
  | Some (_, w') => Some (Normal tt, w')
  end.

(** *** Fields, console, arrays *)

Definition get_publishing : M bool := fun w =>
  Some (Normal (publishing (this w)), w).

Definition set_publishing (b : bool) : M unit := fun w =>
  Some (Normal tt,
        mkWorld (arrays w) (mkPublisher (subscribers (this w)) b)
                (console w) (handled w)).

Definition get_subscribers : M ref := fun w =>
  Some (Normal (subscribers (this w)), w).

Definition set_subscribers (O : ref) : M unit := fun w =>
  Some (Normal tt,
        mkWorld (arrays w) (mkPublisher O (publishing (this w)))
                (console w) (handled w)).

Definition console_warn (msg : string) : M unit := fun w =>
  Some (Normal tt,
        mkWorld (arrays w) (this w) (console w ++ [Warn msg]) (handled w)).

Definition console_debug (msg : string) (event : IDomainEvent) : M unit :=
  fun w =>
  Some (Normal tt,
        mkWorld (arrays w) (this w) (console w ++ [Debug msg event])
                (handled w)).

Definition get_handled : M History := fun w =>
  Some (Normal (handled w), w).

Definition note_handled (l : Listener) (event : IDomainEvent) : M unit :=
  fun w =>
  Some (Normal tt,
        mkWorld (arrays w) (this w) (console w) (handled w ++ [(l, event)])).

(** The array literal [[]]: a new object, distinct from every live one. *)
Definition array_new : M ref := fun w =>
  let O := fresh (dom (arrays w)) in
  Some (Normal O,
        mkWorld (<[O := []]> (arrays w)) (this w) (console w) (handled w)).

Definition array_read (O : ref) : M (list Listener) := fun w =>
  match arrays w !! O with
  | Some a => Some (Normal a, w)
  | None => Some (Abrupt TypeError, w)
  end.

Definition array_write (O : ref) (a : list Listener) : M unit := fun w =>
  Some (Normal tt,
        mkWorld (<[O := a]> (arrays w)) (this w) (console w) (handled w)).

(** [Array.prototype.indexOf]: the first index holding the same reference,
    [-1] when there is none. *)
Fixpoint indexOf_from (a : list Listener) (x : Listener) (k : Z) : Z :=
  match a with
  | [] => (-1)%Z
  | y :: a' => if decide (y = x) then k else indexOf_from a' x (k + 1)%Z
  end.

Definition indexOf (a : list Listener) (x : Listener) : Z :=
  indexOf_from a x 0%Z.

(** [Array.prototype.splice(start, deleteCount)] with no inserted items: a
    negative [start] counts from the end, and the range is clamped. *)
Definition splice (a : list Listener) (start : Z) (deleteCount : nat)
  : list Listener :=
  let len := Z.of_nat (length a) in
  let actualStart :=
    Z.to_nat (if (start <? 0)%Z then Z.max (len + start) 0
              else Z.min start len) in
  take actualStart a ++ drop (actualStart + deleteCount) a.

Definition array_push (O : ref) (x : Listener) : M unit :=
  a <- array_read O ;; array_write O (a ++ [x]).

Definition array_indexOf (O : ref) (x : Listener) : M Z :=
  a <- array_read O ;; ret (indexOf a x).

Definition array_splice (O : ref) (start : Z) (deleteCount : nat) : M unit :=
  a <- array_read O ;; array_write O (splice a start deleteCount).

(** [Array.prototype.map]: the array object and its length are taken once,
    on entry; each index is read from that object when the loop reaches it,
    and an index that holds nothing by then is skipped. *)
Fixpoint map_loop {B} (O : ref) (callbackfn : Listener -> M B)
    (k todo : nat) : M (list B) :=
  match todo with
  | 0 => ret []
  | S todo' =>
      a <- array_read O ;;
      match a !! k with
      | Some x =>
          v <- callbackfn x ;;
          vs <- map_loop O callbackfn (S k) todo' ;;
          ret (v :: vs)
      | None => map_loop O callbackfn (S k) todo'
      end
  end.

Definition array_map {B} (O : ref) (callbackfn : Listener -> M B)
  : M (list B) :=
  a <- array_read O ;; map_loop O callbackfn 0 (length a).

(** ** The methods of [class Publisher] *)

(** [new Publisher()]. *)
Definition new_Publisher : World :=
  mkWorld {[ 0 := [] ]} (mkPublisher 0 false) [] [].

Definition subscribe (subscriber : Listener) : M unit :=
  p <- get_publishing ;;
  if p then ret tt
  else O <- get_subscribers ;; array_push O subscriber.

Definition unsubscribe (subscriber : Listener) : M unit :=
  p <- get_publishing ;;
  if p then console_warn "Tried unsubscribe while publishing" ;; ret tt
  else
    O <- get_subscribers ;;
    index <- array_indexOf O subscriber ;;
    if (-1 <? index)%Z then array_splice O index 1 else ret tt.

Definition reset : M unit :=
  O <- array_new ;; set_subscribers O.

(** Several [subscribe] calls in a row. *)
Fixpoint subscribe_all (ls : list Listener) : M unit :=
  match ls with
  | [] => ret tt
  | l :: ls' => subscribe l ;; subscribe_all ls'
  end.

Section Dispatch.

(** The listeners' code, which may remember every invocation made so far,
    and whatever gets to run while [publish] is suspended: the continuations
    of the pending promises, in some order. *)
Variable handle : History -> Listener -> IDomainEvent -> Behaviour.
Variable schedule : History -> list (list Call) -> list Call.

(** A call made by listener code on the shared instance.  [publish] is an
    [async] method: it hands back a promise and never throws into its
    caller. *)
Definition perform (publish : IDomainEvent -> M unit) (c : Call) : M unit :=
  match c with
  | CallSubscribe l => subscribe l
  | CallUnsubscribe l => unsubscribe l
  | CallPublish e => detached (publish e)
  | CallReset => reset
  end.

Fixpoint perform_all (publish : IDomainEvent -> M unit) (cs : list Call)
  : M unit :=
  match cs with
  | [] => ret tt
  | c :: cs' => perform publish c ;; perform_all publish cs'
  end.

(** [subscriber.handle(event)]. *)
Definition invoke_handle (publish : IDomainEvent -> M unit)
    (subscriber : Listener) (event : IDomainEvent) : M Returned :=
  past <- get_handled ;;
  note_handled subscriber event ;;
  perform_all publish (body (handle past subscriber event)) ;;
  match ending (handle past subscriber event) with
  | Throws => throw (Thrown subscriber)
  | Returns v => ret v
  end.

(** Calls made from promise continuations: an exception there rejects that
    promise and goes no further. *)
Fixpoint settle_all (publish : IDomainEvent -> M unit) (cs : list Call)
  : M unit :=
  match cs with
  | [] => ret tt
  | c :: cs' => detached (perform publish c) ;; settle_all publish cs'
  end.

(** [await Promise.allSettled(promises)]: resumes once every promise has
    settled, whatever the outcomes. *)
Definition await_allSettled (publish : IDomainEvent -> M unit)
    (promises : list Returned) : M unit :=
  past <- get_handled ;;
  settle_all publish (schedule past (later_calls <$> promises)).

Fixpoint publish (fuel : nat) (event : IDomainEvent) : M unit :=
  match fuel with
  | 0 => fun _ => None
  | S fuel' =>
      p <- get_publishing ;;
      if p then ret tt
      else
        try_finally
          (set_publishing true ;;
           O <- get_subscribers ;;
           promises <-
             array_map O (fun subscriber =>
               console_debug "calling subscriber for event" event ;;
               invoke_handle (publish fuel') subscriber event) ;;
           await_allSettled (publish fuel') promises)
          (set_publishing false)
  end.

End Dispatch.

(** ** What a dispatch amounts to, read off the registry *)

Section Outline.

Variable handle : History -> Listener -> IDomainEvent -> Behaviour.
Variable schedule : History -> list (list Call) -> list Call.

Definition throws (past : History) (event : IDomainEvent) (l : Listener)
  : bool :=
  match ending (handle past l event) with
  | Throws => true
  | Returns _ => false
  end.

Definition returned (past : History) (event : IDomainEvent) (l : Listener)
  : Returned :=
  match ending (handle past l event) with
  | Throws => Plain
  | Returns v => v
  end.

(** The listeners the loop gets to: everyone up to and including the first
    one that throws out of [handle]. *)
Fixpoint attempted (past : History) (event : IDomainEvent)
    (ls : list Listener) : list Listener :=
  match ls with
  | [] => []
  | l :: ls' =>
      l :: (if throws past event l then []
            else attempted (past ++ [(l, event)]) event ls')
  end.

Fixpoint first_thrower (past : History) (event : IDomainEvent)
    (ls : list Listener) : option Listener :=
  match ls with
  | [] => None
  | l :: ls' =>
      if throws past event l then Some l
      else first_thrower (past ++ [(l, event)]) event ls'
  end.

(** What the [map] callback returns, entry by entry. *)
Fixpoint promises_of (past : History) (event : IDomainEvent)
    (ls : list Listener) : list Returned :=
  match ls with
  | [] => []
  | l :: ls' =>
      returned past event l :: promises_of (past ++ [(l, event)]) event ls'
  end.

(** Calls made by listener code before the loop ends. *)
Fixpoint loop_calls (past : History) (event : IDomainEvent)
    (ls : list Listener) : list Call :=
  match ls with
  | [] => []
  | l :: ls' =>
      body (handle past l event)
      ++ (if throws past event l then []
          else loop_calls (past ++ [(l, event)]) event ls')
  end.

(** Calls made while [publish] is suspended; none if the loop was cut
    short, since [await] is then never reached. *)
Definition await_calls (past : History) (event : IDomainEvent)
    (ls : list Listener) : list Call :=
  match first_thrower past event ls with
  | Some _ => []
  | None =>
      schedule (past ++ ((fun l => (l, event)) <$> attempted past event ls))
               (later_calls <$> promises_of past event ls)
  end.

Definition dispatch_calls (past : History) (event : IDomainEvent)
    (ls : list Listener) : list Call :=
  loop_calls past event ls ++ await_calls past event ls.

Definition publish_completion (past : History) (event : IDomainEvent)
    (ls : list Listener) : Completion unit :=
  match first_thrower past event ls with
  | Some l => Abrupt (Thrown l)
  | None => Normal tt
  end.

End Outline.

(** The state of a dispatch in flight over the array [O]: the flag is up and
    [O] still holds what it held when the loop started. *)
Definition dispatching_over (O : ref) (xs : list Listener) (w : World)
  : Prop :=
  publishing (this w) = true /\ arrays w !! O = Some xs /\ wf w.

(** ** Sample listeners *)

Module Sample.

Definition A : Listener := 1.
Definition B : Listener := 2.
Definition C : Listener := 3.

Definition event1 : IDomainEvent :=
  mkEvent 1700000000000 [("userId", "u-1")] "user.created".
Definition event2 : IDomainEvent :=
  mkEvent 1700000000001 [] "user.deleted".

(** Every listener returns at once. *)
Definition handle_quiet (past : History) (l : Listener) (e : IDomainEvent)
  : Behaviour :=
  mkBehaviour [] (Returns Plain).

(** [A.handle] throws before returning; the others are [async] and
    fulfil. *)
Definition handle_A_throws (past : History) (l : Listener) (e : IDomainEvent)
  : Behaviour :=
  if decide (l = A) then mkBehaviour [] Throws
  else mkBehaviour [] (Returns (Promise [] Fulfils)).

(** [A.handle] returns a promise that rejects. *)
Definition handle_A_rejects (past : History) (l : Listener) (e : IDomainEvent)
  : Behaviour :=
  if decide (l = A) then mkBehaviour [] (Returns (Promise [] Rejects))
  else mkBehaviour [] (Returns (Promise [] Fulfils)).

(** [A.handle] calls [reset()] and goes on to subscribe [C] after its first
    [await]. *)
Definition handle_A_resets (past : History) (l : Listener) (e : IDomainEvent)
  : Behaviour :=
  if decide (l = A)
  then mkBehaviour [CallReset]
                   (Returns (Promise [CallSubscribe C] Fulfils))
  else mkBehaviour [] (Returns Plain).

(** [A.handle] calls [subscribe(C)] and [publish(event2)] from inside the
    dispatch. *)
Definition handle_A_reenters (past : History) (l : Listener)
    (e : IDomainEvent) : Behaviour :=
  if decide (l = A)
  then mkBehaviour [CallSubscribe C; CallPublish event2]
                   (Returns (Promise [] Fulfils))
  else mkBehaviour [] (Returns Plain).

(** A stateful listener: [A.handle] works once and throws on every later
    invocation. *)
Definition handle_A_throws_again (past : History) (l : Listener)
    (e : IDomainEvent) : Behaviour :=
  if decide (l = A)
  then mkBehaviour [] (if existsb (fun i => Nat.eqb (fst i) A) past
                       then Throws else Returns Plain)
  else mkBehaviour [] (Returns Plain).

(** Continuations run in the order their promises were created. *)
Definition in_order (past : History) (ls : list (list Call)) : list Call :=
  concat ls.

(** [subscribe(A); subscribe(B)] on a new publisher. *)
Definition idle_AB : World :=
  mkWorld {[ 0 := [A; B] ]} (mkPublisher 0 false) [] [].

(** [subscribe(A)] alone. *)
Definition idle_A : World :=
  mkWorld {[ 0 := [A] ]} (mkPublisher 0 false) [] [].

(** [A] registered twice, around [B]. *)
Definition idle_ABA : World :=
  mkWorld {[ 0 := [A; B; A] ]} (mkPublisher 0 false) [] [].

(** [subscribe(A); subscribe(B)], seen from inside a dispatch. *)
Definition busy_AB : World :=
  mkWorld {[ 0 := [A; B] ]} (mkPublisher 0 true) [] [].

End Sample.

(** ** A caller that awaits every call *)

(** One statement of such a program: [await DomainEventPublisher.publish(e)]
    resumes when the promise has settled and rethrows a rejection; the other
    three methods are synchronous. *)
Definition call_and_await (publish : IDomainEvent -> M unit) (c : Call)
  : M unit :=
  match c with
  | CallSubscribe l => subscribe l
  | CallUnsubscribe l => unsubscribe l
  | CallPublish e => publish e
  | CallReset => reset
  end.

Fixpoint run_awaited (publish : IDomainEvent -> M unit) (cs : list Call)
  : M unit :=
  match cs with
  | [] => ret tt
  | c :: cs' => call_and_await publish c ;; run_awaited publish cs'
  end.

(** ** What a dispatch writes to the console *)

Section Transcript.

Variable handle : History -> Listener -> IDomainEvent -> Behaviour.
Variable schedule : History -> list (list Call) -> list Call.

(** The warnings listener code triggers while the flag is up: one for each
    [unsubscribe] it attempts. *)
Definition warnings_of (cs : list Call) : list ConsoleLine :=
  flat_map (fun c =>
              match c with
              | CallUnsubscribe _ =>
                  [Warn "Tried unsubscribe while publishing"]
              | _ => []
              end) cs.

(** The lines of the loop: the debug line of each entry reached, followed by
    the warnings that entry's [handle] triggers. *)
Fixpoint loop_console (past : History) (event : IDomainEvent)
    (ls : list Listener) : list ConsoleLine :=
  match ls with
  | [] => []
  | l :: ls' =>
      Debug "calling subscriber for event" event
      :: warnings_of (body (handle past l event))
      ++ (if throws handle past event l then []
          else loop_console (past ++ [(l, event)]) event ls')
  end.

Definition dispatch_console (past : History) (event : IDomainEvent)
    (ls : list Listener) : list ConsoleLine :=
  loop_console past event ls
  ++ warnings_of (await_calls handle schedule past event ls).

End Transcript.

(** ** Entities and aggregates: [interfaces/AggregateRoot.ts] *)

(** Arrays of domain events, by reference. *)
Abbreviation EventHeap := (gmap nat (list IDomainEvent)) (only parsing).

Section Entities.

(** [EntityId] and its [equals] are not among the sources: the identifier
    type and the comparison [this.id.equals(other.id)] are taken as given. *)
Variable EntityId : Type.
Variable id_equals : EntityId -> EntityId -> bool.

(** An instance of (a subclass of) [IEntity]: the object itself, the subclass
    it was constructed from, and its [id] field. *)
Record IEntity := mkEntity {
  self : ref;
  class_name : string;
  id : EntityId
}.

(** What a caller may pass to [equals(other?)]. *)
Inductive Argument :=
| Undefined
| Null
| NotAnEntity
| AnEntity (other : IEntity).

Definition equals (this : IEntity) (other : Argument) : bool :=
  match other with
  | Undefined | Null => false
  | NotAnEntity => false
  | AnEntity other =>
      if decide (self this = self other) then true
      else id_equals (id this) (id other)
  end.

(** An instance of (a subclass of) [AggregateRoot]: an entity with the
    private readonly field [_domainEvents], a reference to an array. *)
Record AggregateRoot := mkAggregate {
  entity : IEntity;
  _domainEvents : ref
}.

(** [new (class extends AggregateRoot)(id)]: the field initialiser
    allocates the array. *)
Definition new_AggregateRoot (address : ref) (cls : string) (i : EntityId)
    (h : EventHeap) : AggregateRoot * EventHeap :=
  let O := fresh (dom h) in
  (mkAggregate (mkEntity address cls i) O, <[O := []]> h).

(** [this._domainEvents.push(domainEvent)]; [None] when the field refers to
    no array, which no constructed aggregate does. *)
Definition addDomainEvent (this : AggregateRoot) (domainEvent : IDomainEvent)
    (h : EventHeap) : option EventHeap :=
  match h !! _domainEvents this with
  | Some a => Some (<[_domainEvents this := a ++ [domainEvent]]> h)
  | None => None
  end.

(** [return this._domainEvents]: the array itself, not a copy. *)
Definition getDomainEvents (this : AggregateRoot) : ref :=
  _domainEvents this.

(** [this._domainEvents.length = 0]: the array is truncated in place. *)
Definition clearDomainEvents (this : AggregateRoot) (h : EventHeap)
  : option EventHeap :=
  match h !! _domainEvents this with
  | Some a => Some (<[_domainEvents this := take 0 a]> h)
  | None => None
  end.

(** Several [addDomainEvent] calls in a row. *)
Fixpoint addDomainEvents (this : AggregateRoot) (es : list IDomainEvent)
    (h : EventHeap) : option EventHeap :=
  match es with
  | [] => Some h
  | e :: es' =>
      match addDomainEvent this e h with
      | Some h' => addDomainEvents this es' h'
      | None => None
      end
  end.

End Entities.

Arguments mkEntity {EntityId} self class_name id.
Arguments self {EntityId} i.
Arguments class_name {EntityId} i.
Arguments id {EntityId} i.
Arguments Undefined {EntityId}.
Arguments Null {EntityId}.
Arguments NotAnEntity {EntityId}.
Arguments AnEntity {EntityId} other.
Arguments equals {EntityId} id_equals this other.
Arguments mkAggregate {EntityId} entity _domainEvents.
Arguments entity {EntityId} a.
Arguments _domainEvents {EntityId} a.
Arguments new_AggregateRoot {EntityId} address cls i h.
Arguments addDomainEvent {EntityId} this domainEvent h.
Arguments getDomainEvents {EntityId} this.
Arguments clearDomainEvents {EntityId} this h.
Arguments addDomainEvents {EntityId} this es h.

(** ** More sample listeners *)

Module SampleUsage.

(** A listener that tries to be one-shot: [A.handle] calls
    [unsubscribe(A)], and once more after its first [await]. *)
Definition handle_A_one_shot (past : History) (l : Listener)
    (e : IDomainEvent) : Behaviour :=
  if decide (l = Sample.A)
  then mkBehaviour [CallUnsubscribe Sample.A]
                   (Returns (Promise [CallUnsubscribe Sample.A] Fulfils))
  else mkBehaviour [] (Returns Plain).

(** [A.handle] calls [reset()] and then throws before returning. *)
Definition handle_A_resets_then_throws (past : History) (l : Listener)
    (e : IDomainEvent) : Behaviour :=
  if decide (l = Sample.A) then mkBehaviour [CallReset] Throws
  else mkBehaviour [] (Returns Plain).

(** A short program against the shared instance. *)
Definition program : list Call :=
  [CallSubscribe Sample.A; CallSubscribe Sample.B;
   CallPublish Sample.event1; CallUnsubscribe Sample.A; CallReset;
   CallPublish Sample.event2].

End SampleUsage.

(** ** Sample entities *)

Module SampleDomain.

(** Identifiers compared by class and value. *)
Definition typed_id_equals (a b : string * string) : bool :=
  bool_decide (a = b).

Definition user_id : string * string := ("UserId", "a1b2").
Definition other_user_id : string * string := ("UserId", "c3d4").

Definition user : IEntity (string * string) := mkEntity 10 "User" user_id.
Definition user_reloaded : IEntity (string * string) :=
  mkEntity 11 "User" user_id.
Definition admin : IEntity (string * string) := mkEntity 12 "Admin" user_id.
Definition stranger : IEntity (string * string) :=
  mkEntity 13 "User" other_user_id.

(** An aggregate whose array (at reference 0) already holds [event1]. *)
Definition order : AggregateRoot (string * string) :=
  mkAggregate (mkEntity 20 "Order" ("OrderId", "o-1")) 0.

Definition order_heap : gmap nat (list IDomainEvent) :=
  {[ 0 := [Sample.event1] ]}.

End SampleDomain.

(** * Properties *)

(** ** Arrays *)

Lemma indexOf_from_absent (a : list nat) x k :
  x ∉ a -> indexOf_from a x k = (-1)%Z.
Proof.
  revert k. induction a as [|y a IH]; intros k Hx; simpl; [done|].
  apply not_elem_of_cons in Hx as [Hne Hx].
  destruct (decide (y = x)); [congruence|]. by apply IH.
Qed.

Lemma indexOf_from_first (pre post : list nat) x k :
  x ∉ pre ->
  indexOf_from (pre ++ x :: post) x k = (k + Z.of_nat (length pre))%Z.
Proof.
  revert k. induction pre as [|y pre IH]; intros k Hx; simpl.
  - destruct (decide (x = x)); [lia|done].
  - apply not_elem_of_cons in Hx as [Hne Hx].
    destruct (decide (y = x)); [congruence|]. rewrite IH by done. lia.
Qed.

Lemma splice_one_at (pre post : list nat) x :
  splice (pre ++ x :: post) (Z.of_nat (length pre)) 1 = pre ++ post.
Proof.
  unfold splice. rewrite length_app. simpl.
  destruct (Z.ltb_spec (Z.of_nat (length pre)) 0); [lia|].
  replace (Z.to_nat (Z.min _ _)) with (length pre) by lia.
  rewrite take_app_length.
  replace (length pre + 1) with (length pre + 1 + 0)%nat by lia.
  rewrite <- Nat.add_assoc. rewrite drop_app_add'; [|done]. done.
Qed.

(** ** Sequencing *)

Lemma bind_normal {A B} (m : M A) (k : A -> M B) w a w' :
  m w = Some (Normal a, w') -> bind m k w = k a w'.
Proof. intros H. unfold bind. by rewrite H. Qed.

Lemma bind_abrupt {A B} (m : M A) (k : A -> M B) w e w' :
  m w = Some (Abrupt e, w') -> bind m k w = Some (Abrupt e, w').
Proof. intros H. unfold bind. by rewrite H. Qed.

Lemma array_read_held O xs w :
  arrays w !! O = Some xs -> array_read O w = Some (Normal xs, w).
Proof. intros H. unfold array_read. by rewrite H. Qed.

(** ** The guarded methods, one state at a time *)

Lemma subscribe_while_dispatching l w :
  publishing (this w) = true -> subscribe l w = Some (Normal tt, w).
Proof. intros Hp. unfold subscribe, bind, get_publishing. by rewrite Hp. Qed.

Lemma subscribe_while_idle l w xs :
  publishing (this w) = false -> registry w = Some xs ->
  subscribe l w =
    Some (Normal tt,
          mkWorld (<[subscribers (this w) := xs ++ [l]]> (arrays w))
                  (this w) (console w) (handled w)).
Proof.
  intros Hp Hr. unfold registry in Hr.
  unfold subscribe, bind, get_publishing. rewrite Hp.
  unfold get_subscribers, array_push, bind, array_read. by rewrite Hr.
Qed.

Lemma unsubscribe_while_dispatching l w :
  publishing (this w) = true ->
  unsubscribe l w =
    Some (Normal tt,
          mkWorld (arrays w) (this w)
                  (console w ++ [Warn "Tried unsubscribe while publishing"])
                  (handled w)).
Proof. intros Hp. unfold unsubscribe, bind, get_publishing. by rewrite Hp. Qed.

Lemma unsubscribe_while_idle l w xs :
  publishing (this w) = false -> registry w = Some xs ->
  unsubscribe l w =
    Some (Normal tt,
          if (-1 <? indexOf xs l)%Z
          then mkWorld (<[subscribers (this w) := splice xs (indexOf xs l) 1]>
                          (arrays w))
                       (this w) (console w) (handled w)
          else w).
Proof.
  intros Hp Hr. unfold registry in Hr.
  unfold unsubscribe, bind, get_publishing. rewrite Hp.
  unfold get_subscribers, array_indexOf, bind, array_read. rewrite Hr.
  unfold ret. destruct (-1 <? indexOf xs l)%Z; [|done].
  unfold array_splice, bind, array_read. by rewrite Hr.
Qed.

Lemma reset_unfolded w :
  reset w =
    Some (Normal tt,
          mkWorld (<[fresh (dom (arrays w)) := []]> (arrays w))
                  (mkPublisher (fresh (dom (arrays w))) (publishing (this w)))
                  (console w) (handled w)).
Proof. reflexivity. Qed.

Lemma registry_after_write w xs :
  registry (mkWorld (<[subscribers (this w) := xs]> (arrays w))
                    (this w) (console w) (handled w)) = Some xs.
Proof. unfold registry. simpl. apply lookup_insert_eq. Qed.

Lemma fresh_ref_unused (m : gmap nat (list nat)) O xs :
  m !! O = Some xs -> fresh (dom m) ≠ O.
Proof.
  intros HO Heq. apply (is_fresh (dom m)). rewrite Heq.
  apply elem_of_dom. eauto.
Qed.

(** ** Listener code running inside a dispatch *)

Section DispatchFacts.

Variable handle : History -> Listener -> IDomainEvent -> Behaviour.
Variable schedule : History -> list (list Call) -> list Call.

Lemma publish_guard fuel event w :
  publishing (this w) = true ->
  publish handle schedule (S fuel) event w = Some (Normal tt, w).
Proof. intros Hp. simpl. unfold bind, get_publishing. by rewrite Hp. Qed.

Lemma dispatching_console O xs w line :
  dispatching_over O xs w ->
  dispatching_over O xs
    (mkWorld (arrays w) (this w) (console w ++ [line]) (handled w)).
Proof. intros (Hp & HO & Hwf). by repeat split. Qed.

Lemma dispatching_handled O xs w entry :
  dispatching_over O xs w ->
  dispatching_over O xs
    (mkWorld (arrays w) (this w) (console w) (handled w ++ [entry])).
Proof. intros (Hp & HO & Hwf). by repeat split. Qed.

(** One call from listener code while the flag is up: it completes, leaves
    the array under iteration alone and invokes nobody; only [reset] moves
    the registry, to a new empty array. *)
Lemma perform_dispatching fuel c O xs w :
  dispatching_over O xs w ->
  exists w',
    perform (publish handle schedule (S fuel)) c w = Some (Normal tt, w')
    /\ dispatching_over O xs w'
    /\ handled w' = handled w
    /\ registry w' = (if is_reset c then Some [] else registry w).
Proof.
  intros Hd. pose proof Hd as (Hp & HO & Hwf).
  destruct c as [l|l|e|]; cbn [perform].
  - exists w. by rewrite subscribe_while_dispatching.
  - eexists. rewrite unsubscribe_while_dispatching by done.
    split; [done|]. split; [by apply dispatching_console|done].
  - exists w. unfold detached. by rewrite publish_guard.
  - eexists. rewrite reset_unfolded. split; [done|].
    split; [|split; [done|]].
    + split; [done|]. split.
      * simpl. rewrite lookup_insert_ne; [done|].
        by eapply fresh_ref_unused.
      * unfold wf, registry. simpl. rewrite lookup_insert_eq. eauto.
    + unfold registry. simpl. apply lookup_insert_eq.
Qed.

Lemma perform_all_dispatching fuel cs O xs w :
  dispatching_over O xs w ->
  exists w',
    perform_all (publish handle schedule (S fuel)) cs w
      = Some (Normal tt, w')
    /\ dispatching_over O xs w'
    /\ handled w' = handled w
    /\ registry w' = (if existsb is_reset cs then Some [] else registry w).
Proof.
  revert w. induction cs as [|c cs IH]; intros w Hd;
    cbn [perform_all existsb].
  - by exists w.
  - destruct (perform_dispatching fuel c O xs w Hd)
      as (w1 & Hrun & Hd1 & Hh1 & Hr1).
    destruct (IH w1 Hd1) as (w2 & Hrun2 & Hd2 & Hh2 & Hr2).
    exists w2. unfold bind. rewrite Hrun, Hrun2.
    split; [done|]. split; [done|]. split; [congruence|].
    rewrite Hr2, Hr1. by destruct (is_reset c), (existsb is_reset cs).
Qed.

Lemma settle_all_dispatching fuel cs O xs w :
  dispatching_over O xs w ->
  exists w',
    settle_all (publish handle schedule (S fuel)) cs w
      = Some (Normal tt, w')
    /\ dispatching_over O xs w'
    /\ handled w' = handled w
    /\ registry w' = (if existsb is_reset cs then Some [] else registry w).
Proof.
  revert w. induction cs as [|c cs IH]; intros w Hd;
    cbn [settle_all existsb].
  - by exists w.
  - destruct (perform_dispatching fuel c O xs w Hd)
      as (w1 & Hrun & Hd1 & Hh1 & Hr1).
    destruct (IH w1 Hd1) as (w2 & Hrun2 & Hd2 & Hh2 & Hr2).
    exists w2. unfold bind, detached. rewrite Hrun, Hrun2.
    split; [done|]. split; [done|]. split; [congruence|].
    rewrite Hr2, Hr1. by destruct (is_reset c), (existsb is_reset cs).
Qed.

(** The [map] callback on one subscriber. *)
Lemma callback_dispatching fuel event l O xs w :
  dispatching_over O xs w ->
  exists w',
    (console_debug "calling subscriber for event" event ;;
     invoke_handle handle (publish handle schedule (S fuel)) l event) w
      = Some (match ending (handle (handled w) l event) with
              | Throws => Abrupt (Thrown l)
              | Returns v => Normal v
              end, w')
    /\ dispatching_over O xs w'
    /\ handled w' = handled w ++ [(l, event)]
    /\ registry w'
       = (if existsb is_reset (body (handle (handled w) l event))
          then Some [] else registry w).
Proof.
  intros Hd.
  apply (dispatching_console _ _ _
           (Debug "calling subscriber for event" event)) in Hd.
  apply (dispatching_handled _ _ _ (l, event)) in Hd.
  destruct (perform_all_dispatching fuel
              (body (handle (handled w) l event)) _ _ _ Hd)
    as (w1 & Hrun & Hd1 & Hh1 & Hr1).
  exists w1.
  erewrite (bind_normal (console_debug _ _)) by reflexivity.
  unfold invoke_handle.
  erewrite (bind_normal get_handled) by reflexivity.
  erewrite (bind_normal (note_handled _ _)) by reflexivity.
  cbn [handled]. erewrite bind_normal by exact Hrun.
  split; [by destruct (ending (handle (handled w) l event))|].
  split; [done|]. split; [by rewrite Hh1|]. by rewrite Hr1.
Qed.

(** The loop of [map], from index [k] on: it reads the captured array,
    which nobody can touch while the flag is up, and stops at the first
    listener that throws. *)
Lemma map_loop_dispatching fuel event O xs ys : forall k w,
  drop k xs = ys ->
  dispatching_over O xs w ->
  exists w',
    map_loop O
      (fun subscriber =>
         console_debug "calling subscriber for event" event ;;
         invoke_handle handle (publish handle schedule (S fuel))
                       subscriber event)
      k (length ys) w
      = Some (match first_thrower handle (handled w) event ys with
              | Some l => Abrupt (Thrown l)
              | None => Normal (promises_of handle (handled w) event ys)
              end, w')
    /\ dispatching_over O xs w'
    /\ handled w'
       = handled w
         ++ ((fun l => (l, event)) <$> attempted handle (handled w) event ys)
    /\ registry w'
       = (if existsb is_reset (loop_calls handle (handled w) event ys)
          then Some [] else registry w).
Proof.
  induction ys as [|y ys IH]; intros k w Hdrop Hd.
  - exists w. simpl. by rewrite app_nil_r.
  - assert (xs !! k = Some y) as Hk.
    { rewrite <- (Nat.add_0_r k), <- lookup_drop, Hdrop. done. }
    assert (drop (S k) xs = ys) as Hdrop'.
    { rewrite (drop_S _ _ _ Hk) in Hdrop. by inversion Hdrop. }
    cbn [map_loop length].
    erewrite bind_normal by (apply array_read_held, Hd). rewrite Hk.
    destruct (callback_dispatching fuel event y O xs w Hd)
      as (w1 & Hrun & Hd1 & Hh1 & Hr1).
    cbn [first_thrower promises_of attempted loop_calls fmap list_fmap].
    unfold throws, returned.
    destruct (ending (handle (handled w) y event)) as [|v] eqn:Hend.
    + exists w1. erewrite bind_abrupt by exact Hrun.
      split; [done|]. split; [done|]. split; [done|].
      by rewrite app_nil_r.
    + erewrite bind_normal by exact Hrun.
      destruct (IH (S k) w1 Hdrop' Hd1) as (w2 & Hrun2 & Hd2 & Hh2 & Hr2).
      rewrite Hh1 in Hrun2, Hh2, Hr2.
      exists w2. split.
      * destruct (first_thrower handle (handled w ++ [(y, event)]) event ys).
        -- by erewrite bind_abrupt by exact Hrun2.
        -- by erewrite bind_normal by exact Hrun2.
      * split; [done|]. split.
        -- rewrite Hh2, <- app_assoc. done.
        -- rewrite Hr2, Hr1, existsb_app.
           by destruct (existsb is_reset _), (existsb is_reset _).
Qed.

Lemma publish_unfolded fuel event :
  publish handle schedule (S fuel) event =
    (p <- get_publishing ;;
     if p then ret tt
     else
       try_finally
         (set_publishing true ;;
          O <- get_subscribers ;;
          promises <-
            array_map O (fun subscriber =>
              console_debug "calling subscriber for event" event ;;
              invoke_handle handle (publish handle schedule fuel)
                            subscriber event) ;;
          await_allSettled schedule (publish handle schedule fuel) promises)
         (set_publishing false)).
Proof. reflexivity. Qed.

(** A whole [publish] call that finds the flag down, with fuel for the
    calls listeners make back into the publisher. *)
Lemma publish_from_idle fuel event w xs :
  publishing (this w) = false -> registry w = Some xs ->
  exists w',
    publish handle schedule (S (S fuel)) event w
      = Some (publish_completion handle (handled w) event xs, w')
    /\ publishing (this w') = false
    /\ wf w'
    /\ handled w'
       = handled w
         ++ ((fun l => (l, event)) <$> attempted handle (handled w) event xs)
    /\ registry w'
       = (if existsb is_reset
               (dispatch_calls handle schedule (handled w) event xs)
          then Some [] else Some xs)
    /\ arrays w' !! subscribers (this w) = Some xs.
Proof.
  intros Hp Hr.
  set (w0 := mkWorld (arrays w) (mkPublisher (subscribers (this w)) true)
                     (console w) (handled w)).
  assert (dispatching_over (subscribers (this w)) xs w0) as Hd0.
  { split; [done|]. split; [exact Hr|]. unfold wf, registry. simpl.
    unfold registry in Hr. rewrite Hr. eauto. }
  destruct (map_loop_dispatching fuel event _ xs xs 0 w0 eq_refl Hd0)
    as (w1 & Hloop & Hd1 & Hh1 & Hr1).
  change (handled w0) with (handled w) in Hloop, Hh1, Hr1.
  change (registry w0) with (registry w) in Hr1. rewrite Hr in Hr1.
  assert (array_map (subscribers (this w))
            (fun subscriber =>
               console_debug "calling subscriber for event" event ;;
               invoke_handle handle (publish handle schedule (S fuel))
                             subscriber event) w0
          = Some (match first_thrower handle (handled w) event xs with
                  | Some l => Abrupt (Thrown l)
                  | None => Normal (promises_of handle (handled w) event xs)
                  end, w1)) as Hmap.
  { unfold array_map.
    erewrite bind_normal by (apply array_read_held, Hd0). exact Hloop. }
  rewrite publish_unfolded.
  erewrite bind_normal by reflexivity. rewrite Hp.
  unfold try_finally.
  erewrite (bind_normal (set_publishing true)) by reflexivity. fold w0.
  erewrite (bind_normal get_subscribers) by reflexivity.
  cbn [subscribers this w0].
  unfold publish_completion, dispatch_calls, await_calls.
  destruct (first_thrower handle (handled w) event xs) as [l|].
  - erewrite bind_abrupt by exact Hmap.
    eexists. split; [reflexivity|]. split; [done|].
    split; [apply Hd1|]. split; [exact Hh1|]. split; [|apply Hd1].
    rewrite app_nil_r. change (registry _) with (registry w1).
    by rewrite Hr1.
  - erewrite bind_normal by exact Hmap. unfold await_allSettled.
    erewrite (bind_normal get_handled) by reflexivity. rewrite Hh1.
    destruct (settle_all_dispatching fuel
                (schedule
                   (handled w
                    ++ ((fun l => (l, event))
                          <$> attempted handle (handled w) event xs))
                   (later_calls <$> promises_of handle (handled w) event xs))
                _ _ _ Hd1) as (w2 & Hrun2 & Hd2 & Hh2 & Hr2).
    rewrite Hrun2. eexists. split; [reflexivity|]. split; [done|].
    split; [apply Hd2|]. split; [simpl; by rewrite Hh2, Hh1|].
    split; [|apply Hd2].
    change (registry _) with (registry w2).
    rewrite Hr2, Hr1, existsb_app.
    by destruct (existsb is_reset _), (existsb is_reset _).
Qed.

End DispatchFacts.

(** ** Dispatches in which nobody throws out of [handle] *)

Section NoThrow.

Variable handle : History -> Listener -> IDomainEvent -> Behaviour.

Lemma attempted_all event (xs : list nat) : forall past,
  (forall h l, l ∈ xs -> ending (handle h l event) <> Throws) ->
  attempted handle past event xs = xs.
Proof.
  induction xs as [|x xs IH]; intros past Hno; simpl; [done|].
  unfold throws.
  destruct (ending (handle past x event)) eqn:Hend.
  - exfalso. by apply (Hno past x); [left|].
  - f_equal. apply IH. intros h l Hl. apply Hno. by right.
Qed.

Lemma first_thrower_none event (xs : list nat) : forall past,
  (forall h l, l ∈ xs -> ending (handle h l event) <> Throws) ->
  first_thrower handle past event xs = None.
Proof.
  induction xs as [|x xs IH]; intros past Hno; simpl; [done|].
  unfold throws.
  destruct (ending (handle past x event)) eqn:Hend.
  - exfalso. by apply (Hno past x); [left|].
  - apply IH. intros h l Hl. apply Hno. by right.
Qed.

Lemma first_thrower_throws event (xs : list nat) : forall past l,
  first_thrower handle past event xs = Some l ->
  l ∈ xs /\ exists h, ending (handle h l event) = Throws.
Proof.
  induction xs as [|x xs IH]; intros past l; simpl; [done|].
  unfold throws.
  destruct (ending (handle past x event)) eqn:Hend.
  - intros [= <-]. split; [by left|by exists past].
  - intros Hrest. destruct (IH _ _ Hrest) as [Hin Hth].
    split; [by right|done].
Qed.

(** A listener that throws out of [handle] ends the loop: the entries after
    it are not reached. *)
Lemma attempted_until_thrower event (pre post : list nat) l : forall past,
  (forall h l', l' ∈ pre -> ending (handle h l' event) <> Throws) ->
  (forall h, ending (handle h l event) = Throws) ->
  attempted handle past event (pre ++ l :: post) = pre ++ [l]
  /\ first_thrower handle past event (pre ++ l :: post) = Some l.
Proof.
  induction pre as [|x pre IH]; intros past Hno Hth; simpl; unfold throws.
  - by rewrite Hth.
  - destruct (ending (handle past x event)) eqn:Hend.
    + exfalso. by apply (Hno past x); [left|].
    + destruct (IH (past ++ [(x, event)])) as [Hatt Hfirst]; [|done|].
      * intros h l' Hl'. apply Hno. by right.
      * by rewrite Hatt, Hfirst.
Qed.

End NoThrow.

Lemma existsb_is_reset (cs : list Call) :
  CallReset ∈ cs -> existsb is_reset cs = true.
Proof.
  intros Hin. apply existsb_exists. exists CallReset.
  split; [by apply list_elem_of_In|done].
Qed.


Lemma subscribe_all_idle (ls : list nat) : forall w xs,
  publishing (this w) = false -> registry w = Some xs ->
  exists w',
    subscribe_all ls w = Some (Normal tt, w')
    /\ registry w' = Some (xs ++ ls)
    /\ this w' = this w
    /\ console w' = console w
    /\ handled w' = handled w.
Proof.
  induction ls as [|l ls IH]; intros w xs Hp Hr; cbn [subscribe_all].
  - exists w. by rewrite app_nil_r.
  - erewrite bind_normal by (by apply subscribe_while_idle).
    destruct (IH (mkWorld (<[subscribers (this w) := xs ++ [l]]> (arrays w))
                          (this w) (console w) (handled w))
                 (xs ++ [l]) Hp (registry_after_write w (xs ++ [l])))
      as (w' & Hrun & Hreg & Hthis & Hc & Hh).
    exists w'. rewrite Hrun, Hreg, <- app_assoc. done.
Qed.

(** * The publisher's contract *)

Section Contract.

Variable handle : History -> Listener -> IDomainEvent -> Behaviour.
Variable schedule : History -> list (list Call) -> list Call.

(** C1, as the code has it: when [publish] finds the dispatch flag down and
    no listener throws out of [handle], it completes normally and has
    invoked [handle] on the listeners of the registry as it stood at the
    call, one invocation per entry, first entry first. *)
Theorem publish_invokes_each_in_order fuel event w xs :
  2 <= fuel ->
  publishing (this w) = false ->
  registry w = Some xs ->
  (forall past l, l ∈ xs -> ending (handle past l event) <> Throws) ->
  exists w',
    publish handle schedule fuel event w = Some (Normal tt, w')
    /\ handled w' = handled w ++ ((fun l => (l, event)) <$> xs).
Proof.
  intros Hfuel Hp Hr Hno.
  destruct fuel as [|[|fuel]]; [lia|lia|].
  destruct (publish_from_idle handle schedule fuel event w xs Hp Hr)
    as (w' & Hrun & _ & _ & Hh & _).
  exists w'. rewrite Hrun, Hh. unfold publish_completion.
  by rewrite first_thrower_none, attempted_all.
Qed.

(** C4: a [publish] call that finds the dispatch flag up returns at once:
    normal completion, no listener invoked, nothing on the console, the
    whole state as it was. *)
Theorem publish_reentrant_dropped fuel event w :
  0 < fuel ->
  publishing (this w) = true ->
  publish handle schedule fuel event w = Some (Normal tt, w).
Proof.
  intros Hfuel Hp. destruct fuel as [|fuel]; [lia|].
  by apply publish_guard.
Qed.

(** C5, as the code has it: a [publish] call that finds the dispatch flag
    down returns with the flag down again, whether it completes normally or
    a listener threw, and [subscribe] and [unsubscribe] then act on the
    registry as usual. *)
Theorem publish_releases_flag fuel event w xs :
  2 <= fuel ->
  publishing (this w) = false ->
  registry w = Some xs ->
  exists w' ys,
    publish handle schedule fuel event w
      = Some (publish_completion handle (handled w) event xs, w')
    /\ publishing (this w') = false
    /\ registry w' = Some ys
    /\ (forall l, exists w'',
          subscribe l w' = Some (Normal tt, w'')
          /\ registry w'' = Some (ys ++ [l]))
    /\ (forall l pre post, ys = pre ++ l :: post -> l ∉ pre ->
          exists w'',
            unsubscribe l w' = Some (Normal tt, w'')
            /\ registry w'' = Some (pre ++ post)).
Proof.
  intros Hfuel Hp Hr.
  destruct fuel as [|[|fuel]]; [lia|lia|].
  destruct (publish_from_idle handle schedule fuel event w xs Hp Hr)
    as (w' & Hrun & Hp' & [ys Hys] & _ & _).
  exists w', ys. split; [done|]. split; [done|]. split; [done|]. split.
  - intros l. eexists. rewrite (subscribe_while_idle l w' ys) by done.
    split; [done|]. apply registry_after_write.
  - intros l pre post -> Hpre. eexists.
    rewrite (unsubscribe_while_idle l w' _ Hp' Hys).
    unfold indexOf. rewrite indexOf_from_first by done.
    destruct (Z.ltb_spec (-1) (0 + Z.of_nat (length pre))); [|lia].
    split; [done|]. rewrite Z.add_0_l, splice_one_at.
    apply registry_after_write.
Qed.

(** C6: while the dispatch flag is up, [subscribe] changes nothing at all,
    and [unsubscribe] only writes its warning to the console; both complete
    normally and the registry is what it was. *)
Theorem mutation_dropped_while_dispatching l w :
  publishing (this w) = true ->
  subscribe l w = Some (Normal tt, w)
  /\ exists w',
       unsubscribe l w = Some (Normal tt, w')
       /\ arrays w' = arrays w
       /\ this w' = this w
       /\ registry w' = registry w
       /\ handled w' = handled w
       /\ console w'
          = console w ++ [Warn "Tried unsubscribe while publishing"].
Proof.
  intros Hp. split; [by apply subscribe_while_dispatching|].
  eexists. by rewrite unsubscribe_while_dispatching.
Qed.

(** C7: [subscribe] calls made in a row while the dispatch flag is down
    each append to the end of the registry: afterwards it holds what it
    held, followed by the listeners passed, in call order, every
    occurrence kept; starting from an empty registry, exactly those. *)
Theorem subscribe_all_appends (ls : list nat) w xs :
  publishing (this w) = false ->
  registry w = Some xs ->
  exists w',
    subscribe_all ls w = Some (Normal tt, w')
    /\ registry w' = Some (xs ++ ls)
    /\ (xs = [] -> registry w' = Some ls)
    /\ publishing (this w') = false.
Proof.
  intros Hp Hr.
  destruct (subscribe_all_idle ls w xs Hp Hr)
    as (w' & Hrun & Hreg & Hthis & _).
  exists w'. split; [done|]. split; [done|].
  split; [by intros ->|]. by rewrite Hthis.
Qed.

(** C8: with the dispatch flag down, [unsubscribe] completes normally and
    removes the first entry holding the very listener passed, keeping
    every other entry in place and in order; when the listener is not in
    the registry, nothing changes. *)
Theorem unsubscribe_removes_first_occurrence l w xs :
  publishing (this w) = false ->
  registry w = Some xs ->
  exists w',
    unsubscribe l w = Some (Normal tt, w')
    /\ (forall pre post, xs = pre ++ l :: post -> l ∉ pre ->
          registry w' = Some (pre ++ post))
    /\ (l ∉ xs -> w' = w)
    /\ this w' = this w
    /\ console w' = console w
    /\ handled w' = handled w.
Proof.
  intros Hp Hr. eexists.
  rewrite (unsubscribe_while_idle l w xs Hp Hr).
  split; [done|]. split; [|split].
  - intros pre post -> Hpre. unfold indexOf.
    rewrite indexOf_from_first by done.
    destruct (Z.ltb_spec (-1) (0 + Z.of_nat (length pre))); [|lia].
    rewrite Z.add_0_l, splice_one_at. apply registry_after_write.
  - intros Hout. unfold indexOf. by rewrite indexOf_from_absent.
  - by destruct (-1 <? indexOf xs l)%Z.
Qed.

(** C9: [reset] completes normally in any state, leaves the registry
    empty and the dispatch flag as it was, and a [publish] issued next
    invokes no listener. *)
Theorem reset_empties_registry w :
  exists w',
    reset w = Some (Normal tt, w')
    /\ registry w' = Some []
    /\ publishing (this w') = publishing (this w)
    /\ handled w' = handled w
    /\ forall fuel event, 2 <= fuel ->
         exists w'',
           publish handle schedule fuel event w' = Some (Normal tt, w'')
           /\ handled w'' = handled w'.
Proof.
  eexists. rewrite reset_unfolded. split; [done|].
  split; [apply lookup_insert_eq|]. split; [done|]. split; [done|].
  intros fuel event Hfuel.
  set (w' := mkWorld _ _ _ _).
  assert (registry w' = Some []) as Hr by apply lookup_insert_eq.
  destruct (publishing (this w')) eqn:Hp.
  - exists w'. destruct fuel as [|fuel]; [lia|]. by rewrite publish_guard.
  - destruct fuel as [|[|fuel]]; [lia|lia|].
    destruct (publish_from_idle handle schedule fuel event w' [] Hp Hr)
      as (w'' & Hrun & _ & _ & Hh & _).
    exists w''. rewrite Hrun, Hh. simpl. by rewrite app_nil_r.
Qed.

(** [reset] called by listener code while a dispatch is in flight: the loop
    goes on over the array it started with, so [publish] invokes the
    listeners it would have reached anyway (all of them when nobody throws
    out of [handle]), and the registry is empty once it has settled. *)
Theorem reset_during_dispatch fuel event w xs :
  2 <= fuel ->
  publishing (this w) = false ->
  registry w = Some xs ->
  CallReset ∈ dispatch_calls handle schedule (handled w) event xs ->
  exists w',
    publish handle schedule fuel event w
      = Some (publish_completion handle (handled w) event xs, w')
    /\ handled w'
       = handled w
         ++ ((fun l => (l, event)) <$> attempted handle (handled w) event xs)
    /\ ((forall past l, l ∈ xs -> ending (handle past l event) <> Throws) ->
        handled w' = handled w ++ ((fun l => (l, event)) <$> xs))
    /\ arrays w' !! subscribers (this w) = Some xs
    /\ registry w' = Some []
    /\ publishing (this w') = false.
Proof.
  intros Hfuel Hp Hr Hreset.
  destruct fuel as [|[|fuel]]; [lia|lia|].
  destruct (publish_from_idle handle schedule fuel event w xs Hp Hr)
    as (w' & Hrun & Hp' & _ & Hh & Hreg & Hold).
  exists w'. split; [done|]. split; [done|]. split.
  - intros Hno. by rewrite Hh, attempted_all.
  - split; [done|]. by rewrite Hreg, existsb_is_reset.
Qed.

End Contract.

(** ** What can escape *)

Section Escapes.

Variable handle : History -> Listener -> IDomainEvent -> Behaviour.
Variable schedule : History -> list (list Call) -> list Call.

(** The three synchronous methods complete normally in every state whose
    [subscribers] field refers to an array, and leave it referring to one. *)
Lemma synchronous_methods_complete l w :
  wf w ->
  (exists w', subscribe l w = Some (Normal tt, w') /\ wf w')
  /\ (exists w', unsubscribe l w = Some (Normal tt, w') /\ wf w')
  /\ (exists w', reset w = Some (Normal tt, w') /\ wf w').
Proof.
  intros Hwf. pose proof Hwf as [xs Hr].
  assert (exists w', reset w = Some (Normal tt, w') /\ wf w') as Hreset.
  { eexists. split; [apply reset_unfolded|].
    exists []. apply lookup_insert_eq. }
  destruct (publishing (this w)) eqn:Hp.
  - rewrite subscribe_while_dispatching, unsubscribe_while_dispatching
      by done.
    split; [eauto|]. split; [eauto|done].
  - rewrite (subscribe_while_idle l w xs), (unsubscribe_while_idle l w xs)
      by done.
    split; [|split; [|done]]; eexists; (split; [done|]).
    + eexists. apply registry_after_write.
    + destruct (-1 <? indexOf xs l)%Z; [|done].
      eexists. apply registry_after_write.
Qed.

(** With every promise handed back by a listener settling, as [Behaviour]
    has it, two levels of fuel are enough for [publish], and its promise
    rejects only with what a registered listener threw out of [handle]. *)
Lemma publish_settles fuel event w :
  2 <= fuel -> wf w ->
  exists c w',
    publish handle schedule fuel event w = Some (c, w')
    /\ wf w'
    /\ (c = Normal tt
        \/ exists l xs past, registry w = Some xs /\ l ∈ xs
             /\ ending (handle past l event) = Throws
             /\ c = Abrupt (Thrown l)).
Proof.
  intros Hfuel [xs Hr]. destruct fuel as [|[|fuel]]; [lia|lia|].
  destruct (publishing (this w)) eqn:Hp.
  - exists (Normal tt), w. rewrite publish_guard by done.
    split; [done|]. split; [by exists xs|by left].
  - destruct (publish_from_idle handle schedule fuel event w xs Hp Hr)
      as (w' & Hrun & _ & Hwf & _).
    exists (publish_completion handle (handled w) event xs), w'.
    split; [done|]. split; [done|]. unfold publish_completion.
    destruct (first_thrower handle (handled w) event xs) as [l|] eqn:Hfind;
      [right|by left].
    apply first_thrower_throws in Hfind as [Hin [past Hth]].
    by exists l, xs, past.
Qed.

(** X6: with the flag down, the first listener that throws out of [handle]
    ends the dispatch: the entries before it and the thrower itself are
    invoked, the entries after it are not, the promise of [publish] rejects
    with what it threw, and the flag is down again. *)
Lemma throw_escapes_publish fuel event w (pre post : list nat) l :
  2 <= fuel ->
  publishing (this w) = false ->
  registry w = Some (pre ++ l :: post) ->
  (forall past l', l' ∈ pre -> ending (handle past l' event) <> Throws) ->
  (forall past, ending (handle past l event) = Throws) ->
  exists w',
    publish handle schedule fuel event w = Some (Abrupt (Thrown l), w')
    /\ handled w' = handled w ++ ((fun l' => (l', event)) <$> pre ++ [l])
    /\ publishing (this w') = false.
Proof.
  intros Hfuel Hp Hr Hno Hth. destruct fuel as [|[|fuel]]; [lia|lia|].
  destruct (publish_from_idle handle schedule fuel event w _ Hp Hr)
    as (w' & Hrun & Hp' & _ & Hh & _).
  destruct (attempted_until_thrower handle event pre post l (handled w)
              Hno Hth) as [Hatt Hfirst].
  exists w'. unfold publish_completion in Hrun.
  rewrite Hfirst in Hrun. rewrite Hatt in Hh. done.
Qed.

End Escapes.

(** * The contract on sample listeners *)

(** C1 fails as stated when the dispatch flag is up: [A] and [B] are in the
    registry and [publish] returns without invoking either. *)
Lemma publish_while_dispatching_invokes_nobody :
  registry Sample.busy_AB = Some [Sample.A; Sample.B]
  /\ exists w',
       publish Sample.handle_quiet Sample.in_order 2 Sample.event1
               Sample.busy_AB = Some (Normal tt, w')
       /\ handled w' = [].
Proof. split; [reflexivity|]. eexists. split; reflexivity. Qed.

Lemma publish_invokes_each_in_order_witness :
  exists w',
    publish Sample.handle_A_rejects Sample.in_order 2 Sample.event1
            Sample.idle_AB = Some (Normal tt, w')
    /\ handled w'
       = [(Sample.A, Sample.event1); (Sample.B, Sample.event1)].
Proof.
  apply (publish_invokes_each_in_order Sample.handle_A_rejects
           Sample.in_order 2 Sample.event1 Sample.idle_AB
           [Sample.A; Sample.B]); [lia|reflexivity|reflexivity|].
  intros past l _. unfold Sample.handle_A_rejects.
  destruct (decide (l = Sample.A)); discriminate.
Defined.

(** C2 at [subscribe(A); subscribe(B)] with [A.handle] throwing before it
    returns: the exception leaves the [map] callback, [B.handle] is never
    invoked and the promise of [publish] rejects with what [A] threw. *)
Theorem sync_throw_cuts_dispatch_short :
  exists w',
    publish Sample.handle_A_throws Sample.in_order 2 Sample.event1
            Sample.idle_AB = Some (Abrupt (Thrown Sample.A), w')
    /\ handled w' = [(Sample.A, Sample.event1)]
    /\ registry w' = Some [Sample.A; Sample.B]
    /\ publishing (this w') = false.
Proof. eexists. repeat split; vm_compute; reflexivity. Qed.

(** The sibling path: a promise that rejects is absorbed by [allSettled]. *)
Example rejection_is_isolated :
  exists w',
    publish Sample.handle_A_rejects Sample.in_order 2 Sample.event1
            Sample.idle_AB = Some (Normal tt, w')
    /\ handled w'
       = [(Sample.A, Sample.event1); (Sample.B, Sample.event1)]
    /\ publishing (this w') = false.
Proof. eexists. repeat split; vm_compute; reflexivity. Qed.

(** C3 at the same registry: [subscribe], [unsubscribe] and [reset] complete
    normally, and [publish] completes abruptly. *)
Theorem publish_rejects_when_listener_throws :
  (exists w', subscribe Sample.C Sample.idle_AB = Some (Normal tt, w'))
  /\ (exists w', unsubscribe Sample.A Sample.idle_AB = Some (Normal tt, w'))
  /\ (exists w', reset Sample.idle_AB = Some (Normal tt, w'))
  /\ exists e w',
       publish Sample.handle_A_throws Sample.in_order 2 Sample.event1
               Sample.idle_AB = Some (Abrupt e, w').
Proof.
  repeat split; try (eexists; vm_compute; reflexivity).
  do 2 eexists. vm_compute. reflexivity.
Qed.

Lemma publish_reentrant_dropped_witness :
  publish Sample.handle_A_reenters Sample.in_order 1 Sample.event2
          Sample.busy_AB = Some (Normal tt, Sample.busy_AB).
Proof.
  apply (publish_reentrant_dropped Sample.handle_A_reenters Sample.in_order
           1 Sample.event2 Sample.busy_AB); [lia|reflexivity].
Defined.

(** C5 fails as stated on the guarded exit: a [publish] call that finds the
    flag up returns with the flag still up, and a [subscribe] made after it
    has returned is dropped. *)
Lemma dropped_publish_returns_with_flag_up :
  exists w',
    publish Sample.handle_quiet Sample.in_order 2 Sample.event2
            Sample.busy_AB = Some (Normal tt, w')
    /\ publishing (this w') = true
    /\ exists w'',
         subscribe Sample.C w' = Some (Normal tt, w'')
         /\ registry w'' = Some [Sample.A; Sample.B].
Proof.
  eexists. split; [reflexivity|]. split; [reflexivity|].
  eexists. split; reflexivity.
Qed.

Lemma publish_releases_flag_witness :
  exists w' ys,
    publish Sample.handle_A_throws Sample.in_order 2 Sample.event1
            Sample.idle_AB = Some (Abrupt (Thrown Sample.A), w')
    /\ publishing (this w') = false
    /\ registry w' = Some ys
    /\ exists w'',
         subscribe Sample.C w' = Some (Normal tt, w'')
         /\ registry w'' = Some (ys ++ [Sample.C]).
Proof.
  destruct (publish_releases_flag Sample.handle_A_throws Sample.in_order
              2 Sample.event1 Sample.idle_AB [Sample.A; Sample.B])
    as (w' & ys & Hrun & Hp & Hr & Hsub & _); [lia|reflexivity|reflexivity|].
  exists w', ys. split; [exact Hrun|]. split; [exact Hp|].
  split; [exact Hr|]. apply Hsub.
Defined.

Lemma mutation_dropped_while_dispatching_witness :
  subscribe Sample.C Sample.busy_AB = Some (Normal tt, Sample.busy_AB)
  /\ exists w',
       unsubscribe Sample.A Sample.busy_AB = Some (Normal tt, w')
       /\ registry w' = Some [Sample.A; Sample.B].
Proof.
  destruct (mutation_dropped_while_dispatching Sample.A Sample.busy_AB)
    as (_ & w' & Hrun & _ & _ & Hreg & _); [reflexivity|].
  split.
  - apply (mutation_dropped_while_dispatching Sample.C Sample.busy_AB).
    reflexivity.
  - exists w'. split; [exact Hrun|]. rewrite Hreg. reflexivity.
Defined.

Lemma subscribe_all_appends_witness :
  exists w',
    subscribe_all [Sample.A; Sample.A; Sample.B] new_Publisher
      = Some (Normal tt, w')
    /\ registry w' = Some [Sample.A; Sample.A; Sample.B].
Proof.
  destruct (subscribe_all_appends [Sample.A; Sample.A; Sample.B]
              new_Publisher [])
    as (w' & Hrun & Hreg & _); [reflexivity|reflexivity|].
  exists w'. split; [exact Hrun|exact Hreg].
Defined.

Lemma unsubscribe_removes_first_occurrence_witness :
  exists w',
    unsubscribe Sample.A Sample.idle_ABA = Some (Normal tt, w')
    /\ registry w' = Some [Sample.B; Sample.A].
Proof.
  destruct (unsubscribe_removes_first_occurrence Sample.A Sample.idle_ABA
              [Sample.A; Sample.B; Sample.A])
    as (w' & Hrun & Hfirst & _); [reflexivity|reflexivity|].
  exists w'. split; [exact Hrun|].
  apply (Hfirst [] [Sample.B; Sample.A]); [reflexivity|].
  apply not_elem_of_nil.
Defined.

Lemma reset_empties_registry_witness :
  exists w',
    reset Sample.busy_AB = Some (Normal tt, w')
    /\ registry w' = Some []
    /\ publishing (this w') = true
    /\ exists w'',
         publish Sample.handle_quiet Sample.in_order 2 Sample.event1 w'
           = Some (Normal tt, w'')
         /\ handled w'' = handled w'.
Proof.
  destruct (reset_empties_registry Sample.handle_quiet Sample.in_order
              Sample.busy_AB) as (w' & Hrun & Hreg & Hp & _ & Hpub).
  exists w'. split; [exact Hrun|]. split; [exact Hreg|].
  split; [exact Hp|]. apply Hpub. lia.
Defined.

Lemma reset_during_dispatch_witness :
  exists w',
    publish Sample.handle_A_resets Sample.in_order 2 Sample.event1
            Sample.idle_AB = Some (Normal tt, w')
    /\ handled w'
       = [(Sample.A, Sample.event1); (Sample.B, Sample.event1)]
    /\ registry w' = Some [].
Proof.
  destruct (reset_during_dispatch Sample.handle_A_resets Sample.in_order
              2 Sample.event1 Sample.idle_AB [Sample.A; Sample.B])
    as (w' & Hrun & Hh & _ & _ & Hreg & _);
    [lia|reflexivity|reflexivity|apply list_elem_of_here|].
  exists w'. split; [exact Hrun|]. split; [exact Hh|exact Hreg].
Defined.

(** ** Scenarios *)

(** [subscribe(A); subscribe(B); publish(event1)]: both handled once, [A]
    first, and the registry is still [[A; B]]. *)
Example scenario_two_listeners :
  exists w0 w',
    subscribe_all [Sample.A; Sample.B] new_Publisher = Some (Normal tt, w0)
    /\ publish Sample.handle_quiet Sample.in_order 2 Sample.event1 w0
       = Some (Normal tt, w')
    /\ handled w'
       = [(Sample.A, Sample.event1); (Sample.B, Sample.event1)]
    /\ registry w' = Some [Sample.A; Sample.B].
Proof. do 2 eexists. repeat split; vm_compute; reflexivity. Qed.

(** [A.handle] calls [subscribe(C)] and [publish(event2)]: [C] is not added,
    [event2] reaches nobody, the outer call completes and the registry is
    still [[A]]. *)
Example scenario_reentrant_listener :
  exists w',
    publish Sample.handle_A_reenters Sample.in_order 2 Sample.event1
            Sample.idle_A = Some (Normal tt, w')
    /\ handled w' = [(Sample.A, Sample.event1)]
    /\ registry w' = Some [Sample.A]
    /\ publishing (this w') = false.
Proof. eexists. repeat split; vm_compute; reflexivity. Qed.

(** The sample states are states the methods lead to. *)
Example sample_states_reached :
  subscribe_all [Sample.A; Sample.B] new_Publisher
    = Some (Normal tt, Sample.idle_AB)
  /\ subscribe_all [Sample.A; Sample.B; Sample.A] new_Publisher
     = Some (Normal tt, Sample.idle_ABA)
  /\ set_publishing true Sample.idle_AB = Some (Normal tt, Sample.busy_AB).
Proof. repeat split; vm_compute; reflexivity. Qed.

(** [A] registered twice and throwing on its second invocation: the first
    two entries are served, the third throws and [publish] rejects. *)
Example scenario_stateful_listener :
  exists w',
    publish Sample.handle_A_throws_again Sample.in_order 2 Sample.event1
            Sample.idle_ABA = Some (Abrupt (Thrown Sample.A), w')
    /\ handled w'
       = [(Sample.A, Sample.event1); (Sample.B, Sample.event1);
          (Sample.A, Sample.event1)]
    /\ publishing (this w') = false.
Proof. eexists. repeat split; vm_compute; reflexivity. Qed.

(** * Beyond the contract *)

(** ** [unsubscribe] and [subscribe] together *)

Lemma unsubscribe_present l w (pre post : list nat) :
  publishing (this w) = false ->
  registry w = Some (pre ++ l :: post) ->
  l ∉ pre ->
  unsubscribe l w =
    Some (Normal tt,
          mkWorld (<[subscribers (this w) := pre ++ post]> (arrays w))
                  (this w) (console w) (handled w)).
Proof.
  intros Hp Hr Hpre. rewrite (unsubscribe_while_idle l w _ Hp Hr).
  unfold indexOf. rewrite indexOf_from_first by done.
  destruct (Z.ltb_spec (-1) (0 + Z.of_nat (length pre))); [|lia].
  by rewrite Z.add_0_l, splice_one_at.
Qed.

Lemma unsubscribe_absent l w (xs : list nat) :
  publishing (this w) = false ->
  registry w = Some xs ->
  l ∉ xs ->
  unsubscribe l w = Some (Normal tt, w).
Proof.
  intros Hp Hr Hout. rewrite (unsubscribe_while_idle l w _ Hp Hr).
  unfold indexOf. by rewrite indexOf_from_absent.
Qed.

Lemma first_occurrence_unique (l : nat) (pre post pre' post' : list nat) :
  pre ++ l :: post = pre' ++ l :: post' ->
  l ∉ pre -> l ∉ pre' ->
  pre' = pre /\ post' = post.
Proof.
  revert pre'. induction pre as [|x pre IH]; intros [|x' pre'] Heq Hl Hl';
    simpl in Heq.
  - by inversion Heq.
  - exfalso. apply Hl'. inversion Heq. by left.
  - exfalso. apply Hl. inversion Heq. by left.
  - apply not_elem_of_cons in Hl as [_ Hl].
    apply not_elem_of_cons in Hl' as [_ Hl'].
    inversion Heq as [[Hhead Htail]].
    by destruct (IH pre' Htail Hl Hl') as [-> ->].
Qed.

(** X2: with the flag down, [subscribe(l)] followed by [unsubscribe(l)]
    gives back the registry when [l] was not registered; when it was, the
    pair removes the older entry and leaves the new one at the end. *)
Theorem subscribe_then_unsubscribe l w (xs : list nat) :
  publishing (this w) = false ->
  registry w = Some xs ->
  exists w1 w2,
    subscribe l w = Some (Normal tt, w1)
    /\ unsubscribe l w1 = Some (Normal tt, w2)
    /\ (l ∉ xs -> registry w2 = Some xs)
    /\ (forall pre post, xs = pre ++ l :: post -> l ∉ pre ->
          registry w2 = Some (pre ++ post ++ [l])).
Proof.
  intros Hp Hr. eexists.
  rewrite (subscribe_while_idle l w xs Hp Hr).
  set (w1 := mkWorld _ _ _ _).
  assert (publishing (this w1) = false) as Hp1 by done.
  assert (registry w1 = Some (xs ++ [l])) as Hr1
    by apply registry_after_write.
  destruct (decide (l ∈ xs)) as [Hin|Hout].
  - apply list_elem_of_split_l in Hin as (pre & post & Hxs & Hpre).
    eexists. split; [done|]. split.
    + apply (unsubscribe_present l w1 pre (post ++ [l])); [done| |done].
      by rewrite Hr1, Hxs, <- app_assoc.
    + split.
      * intros Hout. exfalso. apply Hout. rewrite Hxs.
        apply elem_of_app. right. by left.
      * intros pre' post' Hxs' Hpre'.
        destruct (first_occurrence_unique l pre post pre' post')
          as [-> ->]; [congruence|done|done|].
        unfold registry. simpl. by rewrite lookup_insert_eq.
  - eexists. split; [done|]. split.
    + apply (unsubscribe_present l w1 xs []); [done| |done].
      by rewrite Hr1.
    + split.
      * intros _. unfold registry. simpl.
        by rewrite lookup_insert_eq, app_nil_r.
      * intros pre post Hxs _. exfalso. apply Hout. rewrite Hxs.
        apply elem_of_app. right. by left.
Qed.

(** X3: [unsubscribe] takes away one entry at a time.  A listener registered
    [n] times is still registered [n - 1] times after one call, the entries
    of every other listener are all kept, and the registry shrinks by one
    exactly when the listener was present. *)
Theorem unsubscribe_one_at_a_time l w (xs : list nat) :
  publishing (this w) = false ->
  registry w = Some xs ->
  exists w' ys,
    unsubscribe l w = Some (Normal tt, w')
    /\ registry w' = Some ys
    /\ count_occ Nat.eq_dec ys l = pred (count_occ Nat.eq_dec xs l)
    /\ (forall l', l' <> l ->
          count_occ Nat.eq_dec ys l' = count_occ Nat.eq_dec xs l')
    /\ length ys = length xs - (if decide (l ∈ xs) then 1 else 0).
Proof.
  intros Hp Hr. destruct (decide (l ∈ xs)) as [Hin|Hout].
  - apply list_elem_of_split_l in Hin as (pre & post & -> & Hpre).
    eexists _, (pre ++ post).
    rewrite (unsubscribe_present l w pre post) by done.
    split; [done|]. split; [apply registry_after_write|].
    rewrite !count_occ_app, !length_app. simpl.
    destruct (Nat.eq_dec l l) as [_|]; [|done].
    split; [lia|]. split; [|lia].
    intros l' Hne. rewrite !count_occ_app. simpl.
    by destruct (Nat.eq_dec l l') as [->|].
  - exists w, xs. rewrite (unsubscribe_absent l w xs) by done.
    split; [done|]. split; [done|]. split; [|split; [done|lia]].
    assert (count_occ Nat.eq_dec xs l = 0) as ->; [|done].
    apply count_occ_not_In. by rewrite <- list_elem_of_In.
Qed.

(** ** Sequences of calls *)

Section Usage.

Variable handle : History -> Listener -> IDomainEvent -> Behaviour.
Variable schedule : History -> list (list Call) -> list Call.

Lemma call_and_await_idle fuel c w :
  (forall past e l, ending (handle past l e) <> Throws) ->
  wf w -> publishing (this w) = false ->
  exists w',
    call_and_await (publish handle schedule (S (S fuel))) c w
      = Some (Normal tt, w')
    /\ wf w'
    /\ publishing (this w') = false.
Proof.
  intros Hno Hwf Hp. pose proof Hwf as [xs Hr].
  destruct c as [l|l|e|]; cbn [call_and_await].
  - eexists. rewrite (subscribe_while_idle l w xs) by done.
    split; [done|]. split; [|done]. eexists. apply registry_after_write.
  - eexists. rewrite (unsubscribe_while_idle l w xs) by done.
    split; [done|]. destruct (-1 <? indexOf xs l)%Z; [|done].
    split; [|done]. eexists. apply registry_after_write.
  - destruct (publish_from_idle handle schedule fuel e w xs Hp Hr)
      as (w' & Hrun & Hp' & Hwf' & _).
    exists w'. unfold publish_completion in Hrun.
    rewrite first_thrower_none in Hrun by (intros; apply Hno). done.
  - eexists. rewrite reset_unfolded. split; [done|]. split; [|done].
    exists []. apply lookup_insert_eq.
Qed.

(** X1: take a program that makes [subscribe], [unsubscribe], [publish] and
    [reset] calls one after the other, awaiting each [publish], on a
    publisher whose flag is down, with listeners that never throw out of
    [handle] and whose promises settle.  Every call of the program completes
    normally, and after each of them the flag is down again and
    [subscribers] still refers to an array.  In particular this holds for
    such a program starting from [new Publisher()]. *)
Theorem awaited_calls_leave_publisher_idle fuel (cs : list Call) w :
  2 <= fuel ->
  (forall past e l, ending (handle past l e) <> Throws) ->
  wf w ->
  publishing (this w) = false ->
  exists w',
    run_awaited (publish handle schedule fuel) cs w = Some (Normal tt, w')
    /\ wf w'
    /\ publishing (this w') = false.
Proof.
  intros Hfuel Hno. destruct fuel as [|[|fuel]]; [lia|lia|]. clear Hfuel.
  revert w. induction cs as [|c cs IH]; intros w Hwf Hp;
    cbn [run_awaited].
  - by exists w.
  - destruct (call_and_await_idle fuel c w Hno Hwf Hp)
      as (w1 & Hrun & Hwf1 & Hp1).
    destruct (IH w1 Hwf1 Hp1) as (w2 & Hrun2 & Hwf2 & Hp2).
    exists w2. by erewrite bind_normal by exact Hrun.
Qed.


End Usage.

(** ** The console *)

Section ConsoleFacts.

Variable handle : History -> Listener -> IDomainEvent -> Behaviour.
Variable schedule : History -> list (list Call) -> list Call.

Lemma warnings_of_cons c cs :
  warnings_of (c :: cs) = warnings_of [c] ++ warnings_of cs.
Proof. unfold warnings_of. simpl. by rewrite app_nil_r. Qed.

Lemma perform_console fuel c w w' :
  publishing (this w) = true ->
  perform (publish handle schedule (S fuel)) c w = Some (Normal tt, w') ->
  console w' = console w ++ warnings_of [c].
Proof.
  intros Hp. destruct c as [l|l|e|]; cbn [perform].
  - rewrite subscribe_while_dispatching by done.
    intros [= <-]. by rewrite app_nil_r.
  - rewrite unsubscribe_while_dispatching by done. by intros [= <-].
  - unfold detached. rewrite publish_guard by done.
    intros [= <-]. by rewrite app_nil_r.
  - rewrite reset_unfolded. intros [= <-]. simpl. by rewrite app_nil_r.
Qed.

Lemma perform_all_console fuel cs O xs : forall w w',
  dispatching_over O xs w ->
  perform_all (publish handle schedule (S fuel)) cs w
    = Some (Normal tt, w') ->
  console w' = console w ++ warnings_of cs.
Proof.
  induction cs as [|c cs IH]; intros w w' Hd; cbn [perform_all].
  - intros [= <-]. by rewrite app_nil_r.
  - destruct (perform_dispatching handle schedule fuel c O xs w Hd)
      as (w1 & Hrun1 & Hd1 & _).
    erewrite bind_normal by exact Hrun1. intros Hrest.
    rewrite (IH w1 w' Hd1 Hrest), warnings_of_cons, app_assoc.
    f_equal. eapply perform_console; [apply Hd|exact Hrun1].
Qed.

Lemma settle_all_console fuel cs O xs : forall w w',
  dispatching_over O xs w ->
  settle_all (publish handle schedule (S fuel)) cs w
    = Some (Normal tt, w') ->
  console w' = console w ++ warnings_of cs.
Proof.
  induction cs as [|c cs IH]; intros w w' Hd; cbn [settle_all].
  - intros [= <-]. by rewrite app_nil_r.
  - destruct (perform_dispatching handle schedule fuel c O xs w Hd)
      as (w1 & Hrun1 & Hd1 & _).
    assert (detached (perform (publish handle schedule (S fuel)) c) w
            = Some (Normal tt, w1)) as Hdet.
    { unfold detached. by rewrite Hrun1. }
    erewrite bind_normal by exact Hdet. intros Hrest.
    rewrite (IH w1 w' Hd1 Hrest), warnings_of_cons, app_assoc.
    f_equal. eapply perform_console; [apply Hd|exact Hrun1].
Qed.

Lemma callback_console fuel event l O xs w r w' :
  dispatching_over O xs w ->
  (console_debug "calling subscriber for event" event ;;
   invoke_handle handle (publish handle schedule (S fuel)) l event) w
    = Some (r, w') ->
  console w'
  = console w
    ++ Debug "calling subscriber for event" event
       :: warnings_of (body (handle (handled w) l event)).
Proof.
  intros Hd.
  apply (dispatching_console _ _ _
           (Debug "calling subscriber for event" event)) in Hd.
  apply (dispatching_handled _ _ _ (l, event)) in Hd.
  destruct (perform_all_dispatching handle schedule fuel
              (body (handle (handled w) l event)) _ _ _ Hd)
    as (w1 & Hrun & _).
  pose proof (perform_all_console fuel _ _ _ _ _ Hd Hrun) as Hc.
  erewrite (bind_normal (console_debug _ _)) by reflexivity.
  unfold invoke_handle.
  erewrite (bind_normal get_handled) by reflexivity.
  erewrite (bind_normal (note_handled _ _)) by reflexivity.
  cbn [handled]. erewrite bind_normal by exact Hrun.
  simpl in Hc. rewrite <- app_assoc in Hc.
  destruct (ending (handle (handled w) l event)); by intros [= _ <-].
Qed.

Lemma map_loop_console fuel event O xs ys : forall k w r w',
  drop k xs = ys ->
  dispatching_over O xs w ->
  map_loop O
    (fun subscriber =>
       console_debug "calling subscriber for event" event ;;
       invoke_handle handle (publish handle schedule (S fuel))
                     subscriber event)
    k (length ys) w = Some (r, w') ->
  console w' = console w ++ loop_console handle (handled w) event ys.
Proof.
  induction ys as [|y ys IH]; intros k w r w' Hdrop Hd.
  - simpl. intros [= _ <-]. by rewrite app_nil_r.
  - assert (xs !! k = Some y) as Hk.
    { rewrite <- (Nat.add_0_r k), <- lookup_drop, Hdrop. done. }
    assert (drop (S k) xs = ys) as Hdrop'.
    { rewrite (drop_S _ _ _ Hk) in Hdrop. by inversion Hdrop. }
    cbn [map_loop length loop_console].
    erewrite bind_normal by (apply array_read_held, Hd). rewrite Hk.
    destruct (callback_dispatching handle schedule fuel event y O xs w Hd)
      as (w1 & Hrun & Hd1 & Hh1 & _).
    pose proof (callback_console fuel event y O xs w _ w1 Hd Hrun) as Hc1.
    unfold throws.
    destruct (ending (handle (handled w) y event)) as [|v].
    + erewrite bind_abrupt by exact Hrun. intros [= _ <-].
      by rewrite Hc1, app_nil_r.
    + erewrite bind_normal by exact Hrun.
      destruct (map_loop_dispatching handle schedule fuel event O xs ys
                  (S k) w1 Hdrop' Hd1) as (w2 & Hrest & _).
      pose proof (IH (S k) w1 _ w2 Hdrop' Hd1 Hrest) as Hc2.
      rewrite Hh1 in Hc2.
      destruct (first_thrower handle (handled w1) event ys).
      * erewrite bind_abrupt by exact Hrest. intros [= _ <-].
        by rewrite Hc2, Hc1, <- !app_assoc.
      * erewrite bind_normal by exact Hrest. intros [= _ <-].
        by rewrite Hc2, Hc1, <- !app_assoc.
Qed.

(** X5: what a dispatch writes.  A [publish] call that finds the flag down
    adds to the console, in this order, the debug line of each entry the
    loop reaches, each followed by one warning for every [unsubscribe] that
    entry's [handle] attempts, and then one warning for every [unsubscribe]
    attempted while [publish] is suspended; it writes nothing else. *)
Theorem publish_console fuel event w (xs : list nat) :
  2 <= fuel ->
  publishing (this w) = false ->
  registry w = Some xs ->
  exists c w',
    publish handle schedule fuel event w = Some (c, w')
    /\ console w'
       = console w ++ dispatch_console handle schedule (handled w) event xs.
Proof.
  intros Hfuel Hp Hr. destruct fuel as [|[|fuel]]; [lia|lia|].
  destruct (publish_from_idle handle schedule fuel event w xs Hp Hr)
    as (w' & Hrun & _).
  eexists _, w'. split; [exact Hrun|].
  set (w0 := mkWorld (arrays w) (mkPublisher (subscribers (this w)) true)
                     (console w) (handled w)).
  assert (dispatching_over (subscribers (this w)) xs w0) as Hd0.
  { split; [done|]. split; [exact Hr|]. unfold wf, registry. simpl.
    unfold registry in Hr. rewrite Hr. eauto. }
  destruct (map_loop_dispatching handle schedule fuel event _ xs xs 0 w0
              eq_refl Hd0) as (w1 & Hloop & Hd1 & Hh1 & _).
  pose proof (map_loop_console fuel event _ xs xs 0 w0 _ w1 eq_refl Hd0
                Hloop) as Hc1.
  change (handled w0) with (handled w) in Hloop, Hh1, Hc1.
  change (console w0) with (console w) in Hc1.
  assert (array_map (subscribers (this w))
            (fun subscriber =>
               console_debug "calling subscriber for event" event ;;
               invoke_handle handle (publish handle schedule (S fuel))
                             subscriber event) w0
          = Some (match first_thrower handle (handled w) event xs with
                  | Some l => Abrupt (Thrown l)
                  | None => Normal (promises_of handle (handled w) event xs)
                  end, w1)) as Hmap.
  { unfold array_map.
    erewrite bind_normal by (apply array_read_held, Hd0). exact Hloop. }
  revert Hrun. rewrite publish_unfolded.
  erewrite bind_normal by reflexivity. rewrite Hp.
  unfold try_finally.
  erewrite (bind_normal (set_publishing true)) by reflexivity. fold w0.
  erewrite (bind_normal get_subscribers) by reflexivity.
  cbn [subscribers this w0].
  unfold dispatch_console, await_calls, publish_completion.
  destruct (first_thrower handle (handled w) event xs) as [l|].
  - erewrite bind_abrupt by exact Hmap. intros [= <-]. simpl.
    by rewrite Hc1, app_nil_r.
  - erewrite bind_normal by exact Hmap. unfold await_allSettled.
    erewrite (bind_normal get_handled) by reflexivity. rewrite Hh1.
    destruct (settle_all_dispatching handle schedule fuel
                (schedule
                   (handled w
                    ++ ((fun l => (l, event))
                          <$> attempted handle (handled w) event xs))
                   (later_calls <$> promises_of handle (handled w) event xs))
                _ _ _ Hd1) as (w2 & Hrun2 & _).
    pose proof (settle_all_console fuel _ _ _ _ _ Hd1 Hrun2) as Hc2.
    rewrite Hrun2. intros [= <-]. simpl.
    by rewrite Hc2, Hc1, <- app_assoc.
Qed.

End ConsoleFacts.

(** ** Entities *)

Section EntityFacts.

Variable EntityId : Type.
Variable id_equals : EntityId -> EntityId -> bool.

(** X9: [equals] is an equivalence on entities as soon as the comparison of
    identifiers is symmetric and transitive.  An entity equals itself even
    when its identifier does not equal itself, because the reference is
    compared first. *)
Theorem equals_equivalence (a b c : IEntity EntityId) :
  (forall i j, id_equals i j = true -> id_equals j i = true) ->
  (forall i j k,
     id_equals i j = true -> id_equals j k = true -> id_equals i k = true) ->
  (self a = self b -> a = b) ->
  (self b = self c -> b = c) ->
  equals id_equals a (AnEntity a) = true
  /\ (equals id_equals a (AnEntity b) = true ->
      equals id_equals b (AnEntity a) = true)
  /\ (equals id_equals a (AnEntity b) = true ->
      equals id_equals b (AnEntity c) = true ->
      equals id_equals a (AnEntity c) = true).
Proof.
  intros Hsym Htrans Hab Hbc. unfold equals. split; [|split].
  - by destruct (decide (self a = self a)).
  - destruct (decide (self a = self b)) as [Heq|Hne],
             (decide (self b = self a)) as [Heq'|Hne'];
      try done; try congruence. apply Hsym.
  - destruct (decide (self a = self b)) as [Heq|Hne].
    { rewrite (Hab Heq). done. }
    destruct (decide (self b = self c)) as [Heq'|Hne'].
    { rewrite <- (Hbc Heq'). intros Hid _.
      by destruct (decide (self a = self b)). }
    intros Hid Hid'. destruct (decide (self a = self c)); [done|].
    by eapply Htrans.
Qed.

(** X10: [equals] answers [false] to [undefined], [null] and anything that
    is not an entity, and for two distinct entity objects it is the
    comparison of their identifiers and nothing more: the classes the two
    objects were constructed from play no part. *)
Theorem equals_by_ids (a b : IEntity EntityId) cls cls' :
  self a <> self b ->
  equals id_equals a Undefined = false
  /\ equals id_equals a Null = false
  /\ equals id_equals a NotAnEntity = false
  /\ equals id_equals a (AnEntity b) = id_equals (id a) (id b)
  /\ equals id_equals (mkEntity (self a) cls (id a))
            (AnEntity (mkEntity (self b) cls' (id b)))
     = equals id_equals a (AnEntity b).
Proof.
  intros Hne. unfold equals. simpl.
  by destruct (decide (self a = self b)).
Qed.

(** ** Aggregates *)

(** X11: an aggregate records its events in the order [addDomainEvent] was
    called, duplicates included, after the events it already held, and the
    arrays of other objects are left alone. *)
Theorem events_recorded_in_order (this : AggregateRoot EntityId)
    (es : list IDomainEvent) : forall (h : gmap nat (list IDomainEvent)) xs,
  h !! getDomainEvents this = Some xs ->
  exists h',
    addDomainEvents this es h = Some h'
    /\ h' !! getDomainEvents this = Some (xs ++ es)
    /\ forall r, r <> getDomainEvents this -> h' !! r = h !! r.
Proof.
  unfold getDomainEvents.
  induction es as [|e es IH]; intros h xs Hxs; simpl.
  - exists h. by rewrite app_nil_r.
  - unfold addDomainEvent. rewrite Hxs.
    destruct (IH (<[_domainEvents this := xs ++ [e]]> h) (xs ++ [e]))
      as (h' & Hrun & Hget & Hframe); [apply lookup_insert_eq|].
    exists h'. split; [done|]. split; [by rewrite Hget, <- app_assoc|].
    intros r Hr. rewrite (Hframe r Hr). by apply lookup_insert_ne.
Qed.

(** X12: [getDomainEvents] hands out the aggregate's own array.  Through a
    reference obtained at any time, a caller sees the event added later,
    sees the array empty after [clearDomainEvents], and sees what is added
    after the clearing. *)
Theorem domain_events_are_shared (this : AggregateRoot EntityId)
    (e1 e2 : IDomainEvent) (h : gmap nat (list IDomainEvent)) xs :
  let r := getDomainEvents this in
  h !! r = Some xs ->
  exists h1 h2 h3,
    addDomainEvent this e1 h = Some h1
    /\ h1 !! r = Some (xs ++ [e1])
    /\ clearDomainEvents this h1 = Some h2
    /\ h2 !! r = Some []
    /\ addDomainEvent this e2 h2 = Some h3
    /\ h3 !! r = Some [e2].
Proof.
  intros r Hxs. unfold clearDomainEvents, addDomainEvent.
  unfold getDomainEvents in *. subst r. rewrite Hxs.
  eexists. rewrite lookup_insert_eq.
  eexists. rewrite lookup_insert_eq.
  eexists. split; [done|]. split; [done|]. split; [done|].
  split; [done|]. split; [done|]. by rewrite lookup_insert_eq.
Qed.

(** X13: every aggregate gets an array of its own.  A new aggregate starts
    with no events and leaves every existing array as it was; of two
    aggregates constructed one after the other, an event added to the first
    does not show up in the second. *)
Theorem aggregates_keep_separate_events address1 address2 cls1 cls2
    (i1 i2 : EntityId) (e : IDomainEvent)
    (h : gmap nat (list IDomainEvent)) :
  let '(a1, h1) := new_AggregateRoot address1 cls1 i1 h in
  let '(a2, h2) := new_AggregateRoot address2 cls2 i2 h1 in
  h1 !! getDomainEvents a1 = Some []
  /\ (forall r xs, h !! r = Some xs -> h2 !! r = Some xs)
  /\ getDomainEvents a1 <> getDomainEvents a2
  /\ exists h3,
       addDomainEvent a1 e h2 = Some h3
       /\ h3 !! getDomainEvents a1 = Some [e]
       /\ h3 !! getDomainEvents a2 = Some [].
Proof.
  unfold new_AggregateRoot, getDomainEvents, addDomainEvent. simpl.
  set (O1 := fresh (dom h)).
  set (O2 := fresh (dom (<[O1:=[]]> h))).
  assert (O2 <> O1) as Hne.
  { intros Heq. apply (is_fresh (dom (<[O1:=[]]> h))). fold O2.
    rewrite Heq. apply elem_of_dom. rewrite lookup_insert_eq. eauto. }
  split; [apply lookup_insert_eq|]. split.
  - intros r xs Hr.
    assert (r <> O1) as Hr1.
    { intros ->. apply (is_fresh (dom h)). apply elem_of_dom. eauto. }
    assert (r <> O2) as Hr2.
    { intros ->. apply (is_fresh (dom (<[O1:=[]]> h))). apply elem_of_dom.
      rewrite lookup_insert_ne by done. eauto. }
    by rewrite !lookup_insert_ne.
  - split; [done|].
    rewrite lookup_insert_ne, lookup_insert_eq by done.
    eexists. split; [done|].
    rewrite lookup_insert_eq. split; [done|].
    by rewrite lookup_insert_ne, lookup_insert_eq.
Qed.

End EntityFacts.

(** * The further properties on sample inputs *)


Lemma awaited_calls_leave_publisher_idle_witness :
  exists w',
    run_awaited (publish Sample.handle_A_rejects Sample.in_order 2)
                SampleUsage.program new_Publisher = Some (Normal tt, w')
    /\ wf w'
    /\ publishing (this w') = false.
Proof.
  apply (awaited_calls_leave_publisher_idle Sample.handle_A_rejects
           Sample.in_order 2 SampleUsage.program new_Publisher);
    [lia| | |reflexivity].
  - intros past e l. unfold Sample.handle_A_rejects.
    destruct (decide (l = Sample.A)); discriminate.
  - exists []. reflexivity.
Defined.

Lemma subscribe_then_unsubscribe_witness :
  exists w1 w2,
    subscribe Sample.A Sample.idle_AB = Some (Normal tt, w1)
    /\ unsubscribe Sample.A w1 = Some (Normal tt, w2)
    /\ registry w2 = Some [Sample.B; Sample.A].
Proof.
  destruct (subscribe_then_unsubscribe Sample.A Sample.idle_AB
              [Sample.A; Sample.B])
    as (w1 & w2 & Hsub & Hunsub & _ & Hmoved); [reflexivity|reflexivity|].
  exists w1, w2. split; [exact Hsub|]. split; [exact Hunsub|].
  apply (Hmoved [] [Sample.B]); [reflexivity|apply not_elem_of_nil].
Defined.

Lemma unsubscribe_one_at_a_time_witness :
  exists w' ys,
    unsubscribe Sample.A Sample.idle_ABA = Some (Normal tt, w')
    /\ registry w' = Some ys
    /\ count_occ Nat.eq_dec ys Sample.A = 1.
Proof.
  destruct (unsubscribe_one_at_a_time Sample.A Sample.idle_ABA
              [Sample.A; Sample.B; Sample.A])
    as (w' & ys & Hrun & Hreg & Hcount & _); [reflexivity|reflexivity|].
  exists w', ys. split; [exact Hrun|]. split; [exact Hreg|exact Hcount].
Defined.


Lemma publish_console_witness :
  exists c w',
    publish SampleUsage.handle_A_one_shot Sample.in_order 2 Sample.event1
            Sample.idle_AB = Some (c, w')
    /\ console w'
       = [Debug "calling subscriber for event" Sample.event1;
          Warn "Tried unsubscribe while publishing";
          Debug "calling subscriber for event" Sample.event1;
          Warn "Tried unsubscribe while publishing"].
Proof.
  apply (publish_console SampleUsage.handle_A_one_shot Sample.in_order 2
           Sample.event1 Sample.idle_AB [Sample.A; Sample.B]);
    [lia|reflexivity|reflexivity].
Defined.

Lemma throw_escapes_publish_witness :
  exists w',
    publish Sample.handle_A_throws Sample.in_order 2 Sample.event1
            Sample.idle_ABA = Some (Abrupt (Thrown Sample.A), w')
    /\ handled w' = [(Sample.A, Sample.event1)]
    /\ publishing (this w') = false.
Proof.
  apply (throw_escapes_publish Sample.handle_A_throws Sample.in_order 2
           Sample.event1 Sample.idle_ABA [] [Sample.B; Sample.A] Sample.A);
    [lia|reflexivity|reflexivity| |reflexivity].
  intros past l Hl. by apply elem_of_nil in Hl.
Defined.

Lemma equals_equivalence_witness :
  equals SampleDomain.typed_id_equals SampleDomain.user
         (AnEntity SampleDomain.user) = true
  /\ (equals SampleDomain.typed_id_equals SampleDomain.user
             (AnEntity SampleDomain.user_reloaded) = true ->
      equals SampleDomain.typed_id_equals SampleDomain.user_reloaded
             (AnEntity SampleDomain.user) = true)
  /\ (equals SampleDomain.typed_id_equals SampleDomain.user
             (AnEntity SampleDomain.user_reloaded) = true ->
      equals SampleDomain.typed_id_equals SampleDomain.user_reloaded
             (AnEntity SampleDomain.admin) = true ->
      equals SampleDomain.typed_id_equals SampleDomain.user
             (AnEntity SampleDomain.admin) = true).
Proof.
  apply (equals_equivalence (string * string) SampleDomain.typed_id_equals
           SampleDomain.user SampleDomain.user_reloaded SampleDomain.admin).
  - intros i j Hij. apply bool_decide_eq_true in Hij.
    apply bool_decide_eq_true. congruence.
  - intros i j k Hij Hjk. apply bool_decide_eq_true in Hij, Hjk.
    apply bool_decide_eq_true. congruence.
  - simpl. discriminate.
  - simpl. discriminate.
Defined.

Lemma equals_by_ids_witness :
  equals SampleDomain.typed_id_equals SampleDomain.user Undefined = false
  /\ equals SampleDomain.typed_id_equals SampleDomain.user Null = false
  /\ equals SampleDomain.typed_id_equals SampleDomain.user NotAnEntity
     = false
  /\ equals SampleDomain.typed_id_equals SampleDomain.user
            (AnEntity SampleDomain.stranger)
     = SampleDomain.typed_id_equals SampleDomain.user_id
                                    SampleDomain.other_user_id
  /\ equals SampleDomain.typed_id_equals SampleDomain.admin
            (AnEntity (mkEntity 13 "Order" SampleDomain.other_user_id))
     = equals SampleDomain.typed_id_equals SampleDomain.user
              (AnEntity SampleDomain.stranger).
Proof.
  apply (equals_by_ids (string * string) SampleDomain.typed_id_equals
           SampleDomain.user SampleDomain.stranger "Admin" "Order").
  simpl. discriminate.
Defined.

Lemma events_recorded_in_order_witness :
  exists h',
    addDomainEvents SampleDomain.order [Sample.event2; Sample.event2]
                    SampleDomain.order_heap = Some h'
    /\ h' !! getDomainEvents SampleDomain.order
       = Some [Sample.event1; Sample.event2; Sample.event2].
Proof.
  destruct (events_recorded_in_order (string * string) SampleDomain.order
              [Sample.event2; Sample.event2] SampleDomain.order_heap
              [Sample.event1]) as (h' & Hrun & Hget & _); [reflexivity|].
  exists h'. split; [exact Hrun|exact Hget].
Defined.

Lemma domain_events_are_shared_witness :
  exists h1 h2 h3,
    addDomainEvent SampleDomain.order Sample.event2 SampleDomain.order_heap
      = Some h1
    /\ h1 !! getDomainEvents SampleDomain.order
       = Some [Sample.event1; Sample.event2]
    /\ clearDomainEvents SampleDomain.order h1 = Some h2
    /\ h2 !! getDomainEvents SampleDomain.order = Some []
    /\ addDomainEvent SampleDomain.order Sample.event1 h2 = Some h3
    /\ h3 !! getDomainEvents SampleDomain.order = Some [Sample.event1].
Proof.
  apply (domain_events_are_shared (string * string) SampleDomain.order
           Sample.event2 Sample.event1 SampleDomain.order_heap
           [Sample.event1]).
  reflexivity.
Defined.

(** Two identifiers of different classes with the same value, as in the
    README: entities carrying them are not equal. *)
Example equals_tells_id_classes_apart :
  equals SampleDomain.typed_id_equals SampleDomain.user
         (AnEntity (mkEntity 14 "User" ("PostId", "a1b2"))) = false
  /\ equals SampleDomain.typed_id_equals SampleDomain.user
            (AnEntity SampleDomain.admin) = true.
Proof. split; reflexivity. Qed.

(** ** The usage shown in the README *)

Section Readme.

Variable handle : History -> Listener -> IDomainEvent -> Behaviour.
Variable schedule : History -> list (list Call) -> list Call.


End Readme.


(** ** [reset] and a throwing listener *)

(** C10 at [subscribe(A); subscribe(B)] with [A.handle] calling [reset()] and
    then throwing before it returns: [reset] leaves the array under
    iteration as it was, yet the throw ends the loop, [B.handle] is never
    invoked although [B] was in the registry when [publish] started, and the
    promise of [publish] rejects.  The registry is empty afterwards. *)
Theorem reset_then_throw_skips_rest :
  registry Sample.idle_AB = Some [Sample.A; Sample.B]
  /\ exists w',
       publish SampleUsage.handle_A_resets_then_throws Sample.in_order 2
               Sample.event1 Sample.idle_AB
         = Some (Abrupt (Thrown Sample.A), w')
       /\ handled w' = [(Sample.A, Sample.event1)]
       /\ arrays w' !! subscribers (this Sample.idle_AB)
          = Some [Sample.A; Sample.B]
       /\ registry w' = Some []
       /\ publishing (this w') = false.
Proof.
  split; [reflexivity|]. eexists. repeat split; vm_compute; reflexivity.
Qed.
